(** * Noise-precision nodes of the factor model: [Tau_nodes.py]

    A shallow embedding of [biofam/core/nodes/Tau_nodes.py]: the two Gamma
    precision nodes [TauD_Node] (one precision per feature, i.e. per column
    of the observation grid) and [TauN_Node] (one precision per sample, i.e.
    per row), with their variational update, their term of the evidence
    lower bound and their prior sampling.

    Conventions of the embedding.
    - Floating-point numbers are read as elements of an arbitrary field [F]
      of characteristic zero (a [numFieldType]); every equation below is an
      equation of exact arithmetic.
    - A two-dimensional array of shape (m, n) is a matrix ['M_(m, n)]; a
      one-dimensional array of length n is a row vector ['rV_n].  Shapes are
      part of the types, so that the arrays handed to a node agree with its
      [dim].
    - Arrays that the node or the observation node keep a reference to live
      in a store ([heap]) and are named by a location; the in-place write
      [Y[mask] = 0.] is a write to that store.
    - A [numpy.ma] masked array is its data and its mask.  The masked sums
      of the update return masked arrays, whose mask goes through the
      arithmetic to [tmp] and to the rate [Qb] that the update computes.
      The store holds grids of numbers: of a masked array it keeps the
      data.
    - [s.log], [special.gammaln], the digamma function and the Gamma sampler
      are library functions and stay abstract. *)

From HB Require Import structures.
From Stdlib Require String.
From mathcomp Require Import boot order algebra.

Set Implicit Arguments.
Unset Strict Implicit.
Unset Printing Implicit Defensive.

Import GRing.Theory Num.Theory.
Local Open Scope ring_scope.

(** ** The numpy operations the nodes use *)

Module Numpy.
Section Ops.

Variable F : numFieldType.

(** [s.square(A)] *)
Definition square m n (A : 'M[F]_(m, n)) : 'M[F]_(m, n) :=
  map_mx (fun x => x * x) A.

(** [A * B], entry by entry *)
Definition multiply m n (A B : 'M[F]_(m, n)) : 'M[F]_(m, n) :=
  \matrix_(i, j) (A i j * B i j).

(** [s.dot(A, B)] and [A.dot(B)] *)
Definition dot m p n (A : 'M[F]_(m, p)) (B : 'M[F]_(p, n)) : 'M[F]_(m, n) :=
  A *m B.

(** [A.sum(axis=0)]: one sum per column *)
Definition sum_axis0 m n (A : 'M[F]_(m, n)) : 'rV[F]_n :=
  \row_j \sum_i A i j.

(** [A.sum(axis=1)]: one sum per row *)
Definition sum_axis1 m n (A : 'M[F]_(m, n)) : 'rV[F]_m :=
  \row_i \sum_j A i j.

(** [s.sum(v)] of a one-dimensional array *)
Definition sum_all n (v : 'rV[F]_n) : F := \sum_j v 0 j.

(** [s.repeat(v[None,:], m, axis=0)]: the row [v] stacked [m] times *)
Definition repeat_axis0 (T : Type) m n (v : 'rV[T]_n) : 'M[T]_(m, n) :=
  \matrix_(i, j) v 0 j.

(** [s.repeat(v[:,None], n, axis=1)]: the column [v] laid side by side
    [n] times *)
Definition repeat_axis1 (T : Type) m n (v : 'rV[T]_m) : 'M[T]_(m, n) :=
  \matrix_(i, j) v 0 i.

(** [A / c], entry by entry; the integer counts are converted to floats *)
Definition divide m n (A : 'M[F]_(m, n)) (c : F) : 'M[F]_(m, n) :=
  map_mx (fun x => x / c) A.

Definition to_float m n (A : 'M[nat]_(m, n)) : 'M[F]_(m, n) :=
  map_mx (fun c : nat => c%:R) A.

(** [mask.sum(axis=0)] and [mask.sum(axis=1)]: the number of [True] entries
    of each column, of each row *)
Definition mask_sum_axis0 m n (mask : 'M[bool]_(m, n)) : 'rV[nat]_n :=
  \row_j (\sum_i mask i j)%N.

Definition mask_sum_axis1 m n (mask : 'M[bool]_(m, n)) : 'rV[nat]_m :=
  \row_i (\sum_j mask i j)%N.

(** [c - v] for an integer [c] and an integer array [v].  The arrays this
    is used on are counts of masked entries, which never exceed [c] (see
    [mask_sum_axis0_le]), so the difference is never negative. *)
Definition rsub n (c : nat) (v : 'rV[nat]_n) : 'rV[nat]_n :=
  map_mx (fun x => (c - x)%N) v.

(** [Y[mask] = 0.]: the array after the masked entries are overwritten *)
Definition zero_fill m n (Y : 'M[F]_(m, n)) (mask : 'M[bool]_(m, n)) :
  'M[F]_(m, n) :=
  \matrix_(i, j) (if mask i j then 0 else Y i j).

(** A [numpy.ma] masked array: the data and the mask, [True] where the entry
    is missing. *)
Record MaskedArray (m n : nat) := ma_array {
  ma_data : 'M[F]_(m, n);
  ma_mask : 'M[bool]_(m, n)
}.

(** [A[i, j]] of a masked array: the number stored there, or the constant
    [masked] when the entry is masked. *)
Definition ma_get m n (A : MaskedArray m n) (i : 'I_m) (j : 'I_n) :
  option F :=
  if ma_mask A i j then None else Some (ma_data A i j).

(** A plain array where a masked array is expected: it carries no mask. *)
Definition ma_nomask m n (A : 'M[F]_(m, n)) : MaskedArray m n :=
  ma_array A (const_mx false).

(** [A.T] of a masked array *)
Definition ma_T m n (A : MaskedArray m n) : MaskedArray n m :=
  ma_array (ma_data A)^T (ma_mask A)^T.

(** An arithmetic operation of [numpy.ma] on two arrays of which one at
    least is masked ([A + B], [A - B], [A * B]): an entry of the result is
    masked when it is masked in either operand, and numpy puts the data of
    the first operand back under the mask. *)
Definition ma_binary (f : F -> F -> F) m n (A B : MaskedArray m n) :
  MaskedArray m n :=
  let mask := \matrix_(i, j) (ma_mask A i j || ma_mask B i j) in
  ma_array (\matrix_(i, j) (if mask i j then ma_data A i j
                            else f (ma_data A i j) (ma_data B i j)))
           mask.

Definition ma_add m n (A B : MaskedArray m n) : MaskedArray m n :=
  ma_binary +%R A B.

Definition ma_subtract m n (A B : MaskedArray m n) : MaskedArray m n :=
  ma_binary (fun x y => x - y) A B.

Definition ma_multiply m n (A B : MaskedArray m n) : MaskedArray m n :=
  ma_binary *%R A B.

(** [A / c] of a masked array by a number: the mask of [A], every entry
    being masked as well when the division is not defined ([c = 0]; the
    margin that numpy takes around zero is a matter of floating point);
    the data of [A] are put back under the mask. *)
Definition ma_divide m n (A : MaskedArray m n) (c : F) : MaskedArray m n :=
  let mask := \matrix_(i, j) (ma_mask A i j || (c == 0)) in
  ma_array (\matrix_(i, j) (if mask i j then ma_data A i j
                            else ma_data A i j / c))
           mask.

(** [s.repeat] of a masked one-dimensional array: the data and the mask are
    repeated alike. *)
Definition ma_repeat_axis0 m n (v : MaskedArray 1 n) : MaskedArray m n :=
  ma_array (repeat_axis0 m (ma_data v)) (repeat_axis0 m (ma_mask v)).

Definition ma_repeat_axis1 m n (v : MaskedArray 1 m) : MaskedArray m n :=
  ma_array (repeat_axis1 n (ma_data v)) (repeat_axis1 n (ma_mask v)).

(** [A.sum(axis=0)] and [ma.sum(A, axis=1)] of a masked array: a masked
    one-dimensional array.  The entries that are masked are left out of the
    sum (the data are those of [A.filled(0).sum(axis)]), and an entry of the
    result is itself masked when the slice it sums is masked throughout
    ([mask.all(axis)]). *)
Definition ma_sum_axis0 m n (A : MaskedArray m n) : MaskedArray 1 n :=
  ma_array (\row_j \sum_(i | ~~ ma_mask A i j) ma_data A i j)
           (\row_j [forall i, ma_mask A i j]).

Definition ma_sum_axis1 m n (A : MaskedArray m n) : MaskedArray 1 m :=
  ma_array (\row_i \sum_(j | ~~ ma_mask A i j) ma_data A i j)
           (\row_i [forall j, ma_mask A i j]).

End Ops.
End Numpy.

(** ** [biofam.core.utils] *)

Module Utils.
Section Dotd.

Variable F : numFieldType.

(** Modelled from the spec: [dotd] of [biofam/core/utils.py], which is not
    part of the sources at hand.  [dotd(A, B)] is the diagonal of the matrix
    product [A.dot(B)], computed row by row as the sum of [A * B.T] without
    forming the product; on masked arrays it is a masked sum as every other
    masked sum of the update: the masked entries are left out, and the
    entry of a row that is masked throughout is masked. *)
Definition dotd m p (A : Numpy.MaskedArray F m p) (B : Numpy.MaskedArray F p m) :
  Numpy.MaskedArray F 1 m :=
  Numpy.ma_sum_axis1 (Numpy.ma_multiply A (Numpy.ma_T B)).

End Dotd.
End Utils.

(** ** The store, the distributions and the Markov blanket *)

Module Core.
Section Defs.

Variables (F : numFieldType) (N D K : nat).

(** The arrays of shape [dim = (N, D)] that objects keep references to. *)
Definition grid := 'M[F]_(N, D).
Definition ref := nat.
Definition heap := seq grid.

Definition deref (h : heap) (l : ref) : grid := nth 0 h l.

(** A new array is put at the first free location. *)
Definition alloc (h : heap) (g : grid) : ref * heap := (size h, rcons h g).

(** A write into an existing array. *)
Definition assign (h : heap) (l : ref) (g : grid) : heap := set_nth 0 h l g.

(** A [Gamma] distribution object of [biofam.core.distributions]:
    [params['a']], [params['b']], [expectations['E']] and
    [expectations['lnE']], each a reference to an array of shape [dim]. *)
Record Gamma := mkGamma {
  params_a : ref;
  params_b : ref;
  expectations_E : ref;
  expectations_lnE : ref
}.

(** The observation node: its expectation is a masked array, the data in
    the store, the mask [True] at the missing entries. *)
Record Y_Node := mkY {
  Y_data : ref;
  Y_mask : 'M[bool]_(N, D)
}.

(** What [getExpectations()] of a factor node returns: the first and the
    second moments, [rows] by [K]. *)
Record Expectations (rows : nat) := mkExp {
  E : 'M[F]_(rows, K);
  E2 : 'M[F]_(rows, K)
}.

(** The Markov blanket holds ["Y"] and one of the two pairs of factor
    nodes: (["SW"], ["Z"]) or (["W"], ["SZ"]). *)
Inductive MarkovBlanket :=
| Blanket_SW_Z (Y : Y_Node) (SW : Expectations D) (Z : Expectations N)
| Blanket_W_SZ (Y : Y_Node) (W : Expectations D) (SZ : Expectations N).

Definition blanket_Y (mb : MarkovBlanket) : Y_Node :=
  match mb with Blanket_SW_Z Y _ _ | Blanket_W_SZ Y _ _ => Y end.

(** The branch [if "SW" in self.markov_blanket: ... else: ...], giving
    [(Wtmp, Ztmp)]. *)
Definition blanket_factors (mb : MarkovBlanket) :
  Expectations D * Expectations N :=
  match mb with
  | Blanket_SW_Z _ SW Z => (SW, Z)
  | Blanket_W_SZ _ W SZ => (W, SZ)
  end.

(** The fields of [Gamma_Unobserved_Variational_Node]. *)
Record Node := mkNode {
  dim : nat * nat;
  P : Gamma;
  Q : Gamma;
  markov_blanket : MarkovBlanket
}.

Variables (log digamma : F -> F).

(** Modelled from the spec: the [Gamma] constructor of
    [biofam/core/distributions.py], which is not part of the sources at
    hand.  It keeps the two parameter grids and the cache of expectations,
    E[tau] = a/b and E[ln tau] = digamma(a) - ln(b); an expectation given
    by the caller replaces the first. *)
Definition Gamma_new (h : heap) (a b : grid) (qE : option grid) :
  Gamma * heap :=
  let: (la, h1) := alloc h a in
  let: (lb, h2) := alloc h1 b in
  let: (lE, h3) :=
    alloc h2 (if qE is Some e then e
              else \matrix_(i, j) (a i j / b i j)) in
  let: (llnE, h4) :=
    alloc h3 (\matrix_(i, j) (digamma (a i j) - log (b i j))) in
  (mkGamma la lb lE llnE, h4).

(** Modelled from the spec: [setParameters] of the distribution, which is
    not part of the sources at hand.  It commits the two new parameter
    arrays and recomputes the cache of expectations.  The spec has the
    committed parameters as grids of numbers and says nothing of a mask on
    them: of [b], which the update hands over as a masked array, the store
    keeps the data, and the expectations are computed from these data.
    Whether the distribution object keeps the mask of [b] is decided by
    the code that is missing. *)
Definition setParameters (h : heap) (a : grid)
    (b : Numpy.MaskedArray F N D) : Gamma * heap :=
  let B := Numpy.ma_data b in
  let: (la, h1) := alloc h a in
  let: (lb, h2) := alloc h1 B in
  let: (lE, h3) := alloc h2 (\matrix_(i, j) (a i j / B i j)) in
  let: (llnE, h4) :=
    alloc h3 (\matrix_(i, j) (digamma (a i j) - log (B i j))) in
  (mkGamma la lb lE llnE, h4).

(** Modelled from the spec: the constructor of
    [Gamma_Unobserved_Variational_Node] in
    [biofam/core/nodes/variational_nodes.py], which is not part of the
    sources at hand: the prior and the initial posterior.  The blanket,
    wired when the model is assembled, is given here with the rest. *)
Definition Node_new (h : heap) (mb : MarkovBlanket)
    (pa pb qa qb : grid) (qE : option grid) : Node * heap :=
  let: (p, h1) := Gamma_new h pa pb None in
  let: (q, h2) := Gamma_new h1 qa qb qE in
  (mkNode (N, D) p q mb, h2).

(** The distribution object that [sample] builds: its [dim] and two
    one-dimensional parameter arrays. *)
Record Gamma1 (n : nat) := mkGamma1 {
  g_dim : nat * nat;
  g_a : 'rV[F]_n;
  g_b : 'rV[F]_n
}.

End Defs.
End Core.

(** ** [class TauD_Node]: one precision per feature *)

Module TauD_Node.
Section Defs.

(** The node has at least one sample: [N = N'.+1], so that the row
    [[0,:]] that [precompute], [calculateELBO] and [sample] read exists. *)
Variables (F : numFieldType) (N' D K : nat).
Notation N := N'.+1.
Variables (log gammaln digamma : F -> F).
Variable rng : Type.
Variable Gamma_sample : forall n, Core.Gamma1 F n -> rng -> 'rV[F]_n * rng.

(** The node: the fields of the base class, and [self.N], [self.lbconst]
    and [self.samp]. *)
Record t := mk {
  base : Core.Node F N D K;
  self_N : nat;
  lbconst : F;
  samp : option 'rV[F]_D
}.

(** What a method runs in: the store of arrays, the node and the state of
    the random generator. *)
Record state := mkState {
  mem : Core.heap F N D;
  self : t;
  random_state : rng
}.

(** [precompute]: [self.N] and [self.lbconst], from the row [[0,:]] of the
    prior. *)
Definition precompute (h : Core.heap F N D) (nd : Core.Node F N D K) : t :=
  let a0 := row 0 (Core.deref h (Core.params_a (Core.P nd))) in
  let b0 := row 0 (Core.deref h (Core.params_b (Core.P nd))) in
  {| base := nd;
     self_N := (Core.dim nd).1;
     lbconst := Numpy.sum_all (Numpy.multiply a0 (map_mx log b0)
                               - map_mx gammaln a0);
     samp := None |}.

(** [__init__]: the constructor of the base class, then [precompute]. *)
Definition init (h : Core.heap F N D) (mb : Core.MarkovBlanket F N D K)
    (pa pb qa qb : Core.grid F N D) (qE : option (Core.grid F N D))
    (g : rng) : state :=
  let: (nd, h1) := Core.Node_new log digamma h mb pa pb qa qb qE in
  mkState h1 (precompute h1 nd) g.

(** The four terms of the update and their sum [tmp], from the zero-filled
    [Y], the mask and the moments of the factors.  [term1] and [term2] are
    plain arrays, [term3] and [term4] are masked arrays, and so is [tmp]:
    [term1 - term2] is the first operand of the sum with [term3]. *)
Definition residual (Y : 'M[F]_(N, D)) (mask : 'M[bool]_(N, D))
    (W WW : 'M[F]_(D, K)) (Z ZZ : 'M[F]_(N, K)) : Numpy.MaskedArray F 1 D :=
  let term1 := Numpy.sum_axis0 (Numpy.square Y) in
  let term2 := 2%:R *: Numpy.sum_axis0 (Numpy.multiply Y (Numpy.dot Z W^T)) in
  let term3 := Numpy.ma_sum_axis0 (Numpy.ma_array (Numpy.dot ZZ WW^T) mask) in
  let WZ := Numpy.ma_array (Numpy.dot W Z^T) mask^T in
  let term4 :=
    Numpy.ma_subtract
      (Utils.dotd WZ (Numpy.ma_T WZ))
      (Numpy.ma_sum_axis0
         (Numpy.ma_array (Numpy.dot (Numpy.square Z) (Numpy.square W)^T)
                         mask)) in
  Numpy.ma_add (Numpy.ma_add (Numpy.ma_nomask (term1 - term2)) term3) term4.

(** The new parameters [(Qa, Qb)] of the posterior; [shape0] is
    [Y.shape[0]].  The two rows are repeated [self.N] times, which is the
    number [N] of rows of the grids of the node.  [Qa] is a plain array,
    the mask of the observation being one; [Qb] is a masked array, as
    [tmp] is. *)
Definition posterior (shape0 : nat) (Y : 'M[F]_(N, D))
    (mask : 'M[bool]_(N, D)) (W WW : 'M[F]_(D, K)) (Z ZZ : 'M[F]_(N, K))
    (Pa Pb : 'M[F]_(N, D)) : 'M[F]_(N, D) * Numpy.MaskedArray F N D :=
  let tmp := residual Y mask W WW Z ZZ in
  let Qa :=
    Pa + Numpy.divide
           (Numpy.to_float F
              (Numpy.repeat_axis0 N
                 (Numpy.rsub shape0 (Numpy.mask_sum_axis0 mask))))
           2%:R in
  let Qb :=
    Numpy.ma_add (Numpy.ma_nomask Pb)
                 (Numpy.ma_divide (Numpy.ma_repeat_axis0 N tmp) 2%:R) in
  (Qa, Qb).

(** [updateParameters] *)
Definition updateParameters (s : state) : state :=
  let nd := base (self s) in
  (* Collect expectations from other nodes *)
  let Ysrc := Core.blanket_Y (Core.markov_blanket nd) in
  let: (Y, h1) := Core.alloc (mem s) (Core.deref (mem s) (Core.Y_data Ysrc)) in
  let mask := Core.Y_mask Ysrc in
  let: (Wtmp, Ztmp) := Core.blanket_factors (Core.markov_blanket nd) in
  let W := Core.E Wtmp in let WW := Core.E2 Wtmp in
  let Z := Core.E Ztmp in let ZZ := Core.E2 Ztmp in
  (* Collect parameters from the P and Q distributions of this node *)
  let Pa := Core.params_a (Core.P nd) in
  let Pb := Core.params_b (Core.P nd) in
  (* Mask matrices *)
  let h2 := Core.assign h1 Y (Numpy.zero_fill (Core.deref h1 Y) mask) in
  (* Calculate terms for the update; perform updates of the Q distribution *)
  let: (Qa, Qb) :=
    posterior N (Core.deref h2 Y) mask W WW Z ZZ
              (Core.deref h2 Pa) (Core.deref h2 Pb) in
  (* Save updated parameters of the Q distribution *)
  let: (q, h3) := Core.setParameters log digamma h2 Qa Qb in
  mkState h3
    {| base := Core.mkNode (Core.dim nd) (Core.P nd) q (Core.markov_blanket nd);
       self_N := self_N (self s);
       lbconst := lbconst (self s);
       samp := samp (self s) |}
    (random_state s).

(** [calculateELBO] *)
Definition calculateELBO (s : state) : F :=
  let nd := base (self s) in
  let h := mem s in
  let Pa := row 0 (Core.deref h (Core.params_a (Core.P nd))) in
  let Pb := row 0 (Core.deref h (Core.params_b (Core.P nd))) in
  let Qa := row 0 (Core.deref h (Core.params_a (Core.Q nd))) in
  let Qb := row 0 (Core.deref h (Core.params_b (Core.Q nd))) in
  let QE := row 0 (Core.deref h (Core.expectations_E (Core.Q nd))) in
  let QlnE := row 0 (Core.deref h (Core.expectations_lnE (Core.Q nd))) in
  let lb_p :=
    lbconst (self s)
    + Numpy.sum_all (Numpy.multiply (Pa - const_mx 1) QlnE)
    - Numpy.sum_all (Numpy.multiply Pb QE) in
  let lb_q :=
    Numpy.sum_all (Numpy.multiply Qa (map_mx log Qb))
    + Numpy.sum_all (Numpy.multiply (Qa - const_mx 1) QlnE)
    - Numpy.sum_all (Numpy.multiply Qb QE)
    - Numpy.sum_all (map_mx gammaln Qa) in
  lb_p - lb_q.

(** The distribution that [sample] draws from. *)
Definition sample_distribution (s : state) : Core.Gamma1 F D :=
  let nd := base (self s) in
  Core.mkGamma1 ((Core.dim nd).2, 1%N)
    (row 0 (Core.deref (mem s) (Core.params_a (Core.P nd))))
    (row 0 (Core.deref (mem s) (Core.params_b (Core.P nd)))).

(** [sample]: the new state and the value returned. *)
Definition sample (distrib : String.string) (s : state) :
  state * 'rV[F]_D :=
  let P := sample_distribution s in
  let: (x, g) := Gamma_sample P (random_state s) in
  (mkState (mem s)
     {| base := base (self s);
        self_N := self_N (self s);
        lbconst := lbconst (self s);
        samp := Some x |}
     g,
   x).

(** What a state holds, read through the references: the parameters of the
    prior and of the posterior (for the rate of the posterior, the data of
    the array that the update computed), the cached expectations, the data
    and the mask of the observation node, the moments of the factors. *)
Definition Pa (s : state) := Core.deref (mem s) (Core.params_a (Core.P (base (self s)))).
Definition Pb (s : state) := Core.deref (mem s) (Core.params_b (Core.P (base (self s)))).
Definition Qa (s : state) := Core.deref (mem s) (Core.params_a (Core.Q (base (self s)))).
Definition Qb (s : state) := Core.deref (mem s) (Core.params_b (Core.Q (base (self s)))).
Definition QE (s : state) :=
  Core.deref (mem s) (Core.expectations_E (Core.Q (base (self s)))).
Definition QlnE (s : state) :=
  Core.deref (mem s) (Core.expectations_lnE (Core.Q (base (self s)))).
Definition Y (s : state) :=
  Core.deref (mem s) (Core.Y_data (Core.blanket_Y (Core.markov_blanket (base (self s))))).
Definition mask (s : state) :=
  Core.Y_mask (Core.blanket_Y (Core.markov_blanket (base (self s)))).
Definition W (s : state) :=
  Core.E (Core.blanket_factors (Core.markov_blanket (base (self s)))).1.
Definition WW (s : state) :=
  Core.E2 (Core.blanket_factors (Core.markov_blanket (base (self s)))).1.
Definition Z (s : state) :=
  Core.E (Core.blanket_factors (Core.markov_blanket (base (self s)))).2.
Definition ZZ (s : state) :=
  Core.E2 (Core.blanket_factors (Core.markov_blanket (base (self s)))).2.

(** A state is well formed when the references it holds name arrays of
    its store. *)
Definition wf (s : state) : bool :=
  let nd := base (self s) in
  let n := size (mem s) in
  [&& (Core.params_a (Core.P nd) < n)%N, (Core.params_b (Core.P nd) < n)%N,
      (Core.params_a (Core.Q nd) < n)%N, (Core.params_b (Core.Q nd) < n)%N,
      (Core.expectations_E (Core.Q nd) < n)%N,
      (Core.expectations_lnE (Core.Q nd) < n)%N
    & (Core.Y_data (Core.blanket_Y (Core.markov_blanket nd)) < n)%N].

(** The values that a run of [updateParameters] from the state [s] gives
    to [tmp] and to [(Qa, Qb)], in terms of what [s] holds. *)
Definition tmp (s : state) : Numpy.MaskedArray F 1 D :=
  residual (Numpy.zero_fill (Y s) (mask s)) (mask s) (W s) (WW s) (Z s) (ZZ s).

Definition new_posterior (s : state) :
  'M[F]_(N, D) * Numpy.MaskedArray F N D :=
  posterior N (Numpy.zero_fill (Y s) (mask s)) (mask s)
            (W s) (WW s) (Z s) (ZZ s) (Pa s) (Pb s).

End Defs.
End TauD_Node.

(** ** [class TauN_Node]: one precision per sample *)

Module TauN_Node.
Section Defs.

(** The node has at least one feature: [D = D'.+1], so that the column
    [[:,0]] that [precompute], [calculateELBO] and [sample] read exists. *)
Variables (F : numFieldType) (N D' K : nat).
Notation D := D'.+1.
Variables (log gammaln digamma : F -> F).
Variable rng : Type.
Variable Gamma_sample : forall n, Core.Gamma1 F n -> rng -> 'rV[F]_n * rng.

(** The node: the fields of the base class, and [self.D], [self.lbconst]
    and [self.samp]. *)
Record t := mk {
  base : Core.Node F N D K;
  self_D : nat;
  lbconst : F;
  samp : option 'rV[F]_N
}.

Record state := mkState {
  mem : Core.heap F N D;
  self : t;
  random_state : rng
}.

(** [A[:,0]] as a one-dimensional array *)
Definition col0 (A : 'M[F]_(N, D)) : 'rV[F]_N := (col 0 A)^T.

(** [precompute]: [self.D] and [self.lbconst], from the column [[:,0]] of
    the prior. *)
Definition precompute (h : Core.heap F N D) (nd : Core.Node F N D K) : t :=
  let a0 := col0 (Core.deref h (Core.params_a (Core.P nd))) in
  let b0 := col0 (Core.deref h (Core.params_b (Core.P nd))) in
  {| base := nd;
     self_D := (Core.dim nd).2;
     lbconst := Numpy.sum_all (Numpy.multiply a0 (map_mx log b0)
                               - map_mx gammaln a0);
     samp := None |}.

(** [__init__]: the constructor of the base class, then [precompute]. *)
Definition init (h : Core.heap F N D) (mb : Core.MarkovBlanket F N D K)
    (pa pb qa qb : Core.grid F N D) (qE : option (Core.grid F N D))
    (g : rng) : state :=
  let: (nd, h1) := Core.Node_new log digamma h mb pa pb qa qb qE in
  mkState h1 (precompute h1 nd) g.

(** The four terms of the update and their sum [tmp], from the zero-filled
    [Y], the mask and the moments of the factors.  [term1] and [term2] are
    plain arrays, [term3] and [term4] are masked arrays, and so is [tmp]:
    [term1 - term2] is the first operand of the sum with [term3]. *)
Definition residual (Y : 'M[F]_(N, D)) (mask : 'M[bool]_(N, D))
    (W WW : 'M[F]_(D, K)) (Z ZZ : 'M[F]_(N, K)) : Numpy.MaskedArray F 1 N :=
  let term1 := Numpy.sum_axis1 (Numpy.square Y) in
  let term2 := 2%:R *: Numpy.sum_axis1 (Numpy.multiply Y (Numpy.dot Z W^T)) in
  let term3 := Numpy.ma_sum_axis1 (Numpy.ma_array (Numpy.dot ZZ WW^T) mask) in
  let ZW := Numpy.ma_array (Numpy.dot Z W^T) mask in
  let term4 :=
    Numpy.ma_subtract
      (Utils.dotd ZW (Numpy.ma_T ZW))
      (Numpy.ma_sum_axis1
         (Numpy.ma_array (Numpy.dot (Numpy.square Z) (Numpy.square W)^T)
                         mask)) in
  Numpy.ma_add (Numpy.ma_add (Numpy.ma_nomask (term1 - term2)) term3) term4.

(** The new parameters [(Qa, Qb)] of the posterior; [shape1] is
    [Y.shape[1]].  The two columns are repeated [self.D] times, which is
    the number [D] of columns of the grids of the node.  [Qa] is a plain
    array, the mask of the observation being one; [Qb] is a masked array,
    as [tmp] is. *)
Definition posterior (shape1 : nat) (Y : 'M[F]_(N, D))
    (mask : 'M[bool]_(N, D)) (W WW : 'M[F]_(D, K)) (Z ZZ : 'M[F]_(N, K))
    (Pa Pb : 'M[F]_(N, D)) : 'M[F]_(N, D) * Numpy.MaskedArray F N D :=
  let tmp := residual Y mask W WW Z ZZ in
  let Qa :=
    Pa + Numpy.divide
           (Numpy.to_float F
              (Numpy.repeat_axis1 D
                 (Numpy.rsub shape1 (Numpy.mask_sum_axis1 mask))))
           2%:R in
  let Qb :=
    Numpy.ma_add (Numpy.ma_nomask Pb)
                 (Numpy.ma_divide (Numpy.ma_repeat_axis1 D tmp) 2%:R) in
  (Qa, Qb).

(** [updateParameters] *)
Definition updateParameters (s : state) : state :=
  let nd := base (self s) in
  (* Collect expectations from other nodes *)
  let Ysrc := Core.blanket_Y (Core.markov_blanket nd) in
  let: (Y, h1) := Core.alloc (mem s) (Core.deref (mem s) (Core.Y_data Ysrc)) in
  let mask := Core.Y_mask Ysrc in
  let: (Wtmp, Ztmp) := Core.blanket_factors (Core.markov_blanket nd) in
  let W := Core.E Wtmp in let WW := Core.E2 Wtmp in
  let Z := Core.E Ztmp in let ZZ := Core.E2 Ztmp in
  (* Collect parameters from the P and Q distributions of this node *)
  let Pa := Core.params_a (Core.P nd) in
  let Pb := Core.params_b (Core.P nd) in
  (* Mask matrices *)
  let h2 := Core.assign h1 Y (Numpy.zero_fill (Core.deref h1 Y) mask) in
  (* Calculate terms for the update; perform updates of the Q distribution *)
  let: (Qa, Qb) :=
    posterior D (Core.deref h2 Y) mask W WW Z ZZ
              (Core.deref h2 Pa) (Core.deref h2 Pb) in
  (* Save updated parameters of the Q distribution *)
  let: (q, h3) := Core.setParameters log digamma h2 Qa Qb in
  mkState h3
    {| base := Core.mkNode (Core.dim nd) (Core.P nd) q (Core.markov_blanket nd);
       self_D := self_D (self s);
       lbconst := lbconst (self s);
       samp := samp (self s) |}
    (random_state s).

(** [calculateELBO] *)
Definition calculateELBO (s : state) : F :=
  let nd := base (self s) in
  let h := mem s in
  let Pa := col0 (Core.deref h (Core.params_a (Core.P nd))) in
  let Pb := col0 (Core.deref h (Core.params_b (Core.P nd))) in
  let Qa := col0 (Core.deref h (Core.params_a (Core.Q nd))) in
  let Qb := col0 (Core.deref h (Core.params_b (Core.Q nd))) in
  let QE := col0 (Core.deref h (Core.expectations_E (Core.Q nd))) in
  let QlnE := col0 (Core.deref h (Core.expectations_lnE (Core.Q nd))) in
  let lb_p :=
    lbconst (self s)
    + Numpy.sum_all (Numpy.multiply (Pa - const_mx 1) QlnE)
    - Numpy.sum_all (Numpy.multiply Pb QE) in
  let lb_q :=
    Numpy.sum_all (Numpy.multiply Qa (map_mx log Qb))
    + Numpy.sum_all (Numpy.multiply (Qa - const_mx 1) QlnE)
    - Numpy.sum_all (Numpy.multiply Qb QE)
    - Numpy.sum_all (map_mx gammaln Qa) in
  lb_p - lb_q.

(** The distribution that [sample] draws from. *)
Definition sample_distribution (s : state) : Core.Gamma1 F N :=
  let nd := base (self s) in
  Core.mkGamma1 ((Core.dim nd).1, 1%N)
    (col0 (Core.deref (mem s) (Core.params_a (Core.P nd))))
    (col0 (Core.deref (mem s) (Core.params_b (Core.P nd)))).

(** [sample]: the new state and the value returned. *)
Definition sample (distrib : String.string) (s : state) :
  state * 'rV[F]_N :=
  let P := sample_distribution s in
  let: (x, g) := Gamma_sample P (random_state s) in
  (mkState (mem s)
     {| base := base (self s);
        self_D := self_D (self s);
        lbconst := lbconst (self s);
        samp := Some x |}
     g,
   x).

(** What a state holds, read through the references: the parameters of the
    prior and of the posterior (for the rate of the posterior, the data of
    the array that the update computed), the cached expectations, the data
    and the mask of the observation node, the moments of the factors. *)
Definition Pa (s : state) := Core.deref (mem s) (Core.params_a (Core.P (base (self s)))).
Definition Pb (s : state) := Core.deref (mem s) (Core.params_b (Core.P (base (self s)))).
Definition Qa (s : state) := Core.deref (mem s) (Core.params_a (Core.Q (base (self s)))).
Definition Qb (s : state) := Core.deref (mem s) (Core.params_b (Core.Q (base (self s)))).
Definition QE (s : state) :=
  Core.deref (mem s) (Core.expectations_E (Core.Q (base (self s)))).
Definition QlnE (s : state) :=
  Core.deref (mem s) (Core.expectations_lnE (Core.Q (base (self s)))).
Definition Y (s : state) :=
  Core.deref (mem s) (Core.Y_data (Core.blanket_Y (Core.markov_blanket (base (self s))))).
Definition mask (s : state) :=
  Core.Y_mask (Core.blanket_Y (Core.markov_blanket (base (self s)))).
Definition W (s : state) :=
  Core.E (Core.blanket_factors (Core.markov_blanket (base (self s)))).1.
Definition WW (s : state) :=
  Core.E2 (Core.blanket_factors (Core.markov_blanket (base (self s)))).1.
Definition Z (s : state) :=
  Core.E (Core.blanket_factors (Core.markov_blanket (base (self s)))).2.
Definition ZZ (s : state) :=
  Core.E2 (Core.blanket_factors (Core.markov_blanket (base (self s)))).2.

(** A state is well formed when the references it holds name arrays of
    its store. *)
Definition wf (s : state) : bool :=
  let nd := base (self s) in
  let n := size (mem s) in
  [&& (Core.params_a (Core.P nd) < n)%N, (Core.params_b (Core.P nd) < n)%N,
      (Core.params_a (Core.Q nd) < n)%N, (Core.params_b (Core.Q nd) < n)%N,
      (Core.expectations_E (Core.Q nd) < n)%N,
      (Core.expectations_lnE (Core.Q nd) < n)%N
    & (Core.Y_data (Core.blanket_Y (Core.markov_blanket nd)) < n)%N].

(** The values that a run of [updateParameters] from the state [s] gives
    to [tmp] and to [(Qa, Qb)], in terms of what [s] holds. *)
Definition tmp (s : state) : Numpy.MaskedArray F 1 N :=
  residual (Numpy.zero_fill (Y s) (mask s)) (mask s) (W s) (WW s) (Z s) (ZZ s).

Definition new_posterior (s : state) :
  'M[F]_(N, D) * Numpy.MaskedArray F N D :=
  posterior D (Numpy.zero_fill (Y s) (mask s)) (mask s)
            (W s) (WW s) (Z s) (ZZ s) (Pa s) (Pb s).

End Defs.
End TauN_Node.

(** ** The residual, expanded entry by entry *)

Module Reference.
Section Defs.

Variables (F : numFieldType) (N D K : nat).
Variables (Y : 'M[F]_(N, D)) (W WW : 'M[F]_(D, K)) (Z ZZ : 'M[F]_(N, K)).

(** The expectation of the product [Z[n,k] W[d,k] Z[n,k'] W[d,k']]: for
    [k = k'] the squared entries are replaced by their second moments, for
    [k <> k'] the product is the product of the first moments. *)
Definition second_moment (n : 'I_N) (d : 'I_D) (k k' : 'I_K) : F :=
  if k == k' then ZZ n k * WW d k
  else (Z n k * W d k) * (Z n k' * W d k').

(** The expectation of [(Y[n,d] - sum_k Z[n,k] W[d,k])^2], the square
    expanded into [Y^2 - 2 Y sum_k Z W + sum_k sum_k' Z W Z W]. *)
Definition expected_sq_residual (n : 'I_N) (d : 'I_D) : F :=
  Y n d * Y n d - 2%:R * (Y n d * \sum_k Z n k * W d k)
  + \sum_k \sum_k' second_moment n d k k'.

End Defs.

(** The number of entries of column [d], of row [n], that are not missing. *)
Definition present_in_column N D (mask : 'M[bool]_(N, D)) (d : 'I_D) : nat :=
  (\sum_n ~~ mask n d)%N.

Definition present_in_row N D (mask : 'M[bool]_(N, D)) (n : 'I_N) : nat :=
  (\sum_d ~~ mask n d)%N.

End Reference.

(** ** The input of [TauN_Node], transposed into an input of [TauD_Node] *)

Module Mirror.
Section Defs.

Variables (F : numFieldType) (N D' K : nat) (rng : Type).
Notation D := D'.+1.

Definition transpose_Y (y : Core.Y_Node N D) : Core.Y_Node D N :=
  Core.mkY (Core.Y_data y) (Core.Y_mask y)^T.

(** The observation is transposed and the two factor nodes change roles:
    the scores of the one are the loadings of the other. *)
Definition transpose_blanket (mb : Core.MarkovBlanket F N D K) :
  Core.MarkovBlanket F D N K :=
  match mb with
  | Core.Blanket_SW_Z y SW Z => Core.Blanket_SW_Z (transpose_Y y) Z SW
  | Core.Blanket_W_SZ y W SZ => Core.Blanket_W_SZ (transpose_Y y) SZ W
  end.

(** Every array of the store is transposed; the references stay. *)
Definition transpose_state (s : TauN_Node.state F N D' K rng) :
  TauD_Node.state F D' N K rng :=
  let t := TauN_Node.self s in
  let nd := TauN_Node.base t in
  TauD_Node.mkState
    [seq g^T | g <- TauN_Node.mem s]
    {| TauD_Node.base :=
         Core.mkNode ((Core.dim nd).2, (Core.dim nd).1) (Core.P nd) (Core.Q nd)
                     (transpose_blanket (Core.markov_blanket nd));
       TauD_Node.self_N := TauN_Node.self_D t;
       TauD_Node.lbconst := TauN_Node.lbconst t;
       TauD_Node.samp := TauN_Node.samp t |}
    (TauN_Node.random_state s).

End Defs.
End Mirror.

(** ** A node with one sample, one feature and one factor *)

Module Example.

(** Stand-ins for the library functions, and a sampler that returns the
    shape parameter. *)
Definition fn (x : rat) : rat := x.

Definition draw n (P : Core.Gamma1 rat n) (g : unit) : 'rV[rat]_n * unit :=
  (Core.g_a P, g).

(** A value of [distrib] other than the default. *)
Definition distrib_Q : String.string :=
  String.String (Ascii.ascii_of_nat 81) String.EmptyString.

Definition observed : Core.grid rat 1 1 := const_mx 3%:Q.

Definition moments : Core.Expectations rat 1 1 :=
  Core.mkExp (const_mx 1) (const_mx 2%:Q).

(** The only entry of the observation is missing or not. *)
Definition blanket (missing : bool) : Core.MarkovBlanket rat 1 1 1 :=
  Core.Blanket_SW_Z (Core.mkY 0 (const_mx missing)) moments moments.

Definition prior : Core.grid rat 1 1 := const_mx 1.

Definition tauD (missing : bool) : TauD_Node.state rat 0 1 1 unit :=
  TauD_Node.init fn fn fn [:: observed] (blanket missing)
    prior prior prior prior None tt.

Definition tauN (missing : bool) : TauN_Node.state rat 1 0 1 unit :=
  TauN_Node.init fn fn fn [:: observed] (blanket missing)
    prior prior prior prior None tt.

(** The end-to-end scenario of the specification: two samples, two
    features, one factor, nothing missing, [Y = [[1,2],[1,2]]],
    [Z = [[1],[1]]], [W = [[1],[2]]] with second moments the squares of
    the first, and the prior [a = b = 1]. *)
Definition scenario_Y : Core.grid rat 2 2 := \matrix_(n, d) (d.+1)%:R.

Definition scenario_Z : Core.Expectations rat 1 2 :=
  Core.mkExp (const_mx 1) (const_mx 1).

Definition scenario_W : Core.Expectations rat 1 2 :=
  Core.mkExp (\matrix_(d, k) (d.+1)%:R)
             (\matrix_(d, k) ((d.+1)%:R * (d.+1)%:R)).

Definition scenario : TauD_Node.state rat 1 2 1 unit :=
  TauD_Node.init fn fn fn [:: scenario_Y]
    (Core.Blanket_SW_Z (Core.mkY 0 (const_mx false)) scenario_W scenario_Z)
    (const_mx 1) (const_mx 1) (const_mx 1) (const_mx 1) None tt.

End Example.

(** ** Further small nodes *)

Module Example2.

(** The node [Example.tauD true] again, with another number stored under
    the mask, another initial posterior and an initial expectation. *)
Definition placeholder : TauD_Node.state rat 0 1 1 unit :=
  TauD_Node.init Example.fn Example.fn Example.fn [:: const_mx 5%:Q]
    (Example.blanket true) Example.prior Example.prior
    (const_mx 7%:Q) (const_mx 4%:Q) (Some (const_mx 2%:Q)) tt.

(** The blanket of [Example.scenario]. *)
Definition scenario_blanket : Core.MarkovBlanket rat 2 2 1 :=
  Core.Blanket_SW_Z (Core.mkY 0 (const_mx false))
    Example.scenario_W Example.scenario_Z.

End Example2.

(** ** Sequences of method calls *)

Module Driver.
Section Defs.

Variables (F : numFieldType) (K : nat) (log digamma : F -> F) (rng : Type).
Variable Gamma_sample : forall n, Core.Gamma1 F n -> rng -> 'rV[F]_n * rng.

(** A call of one of the two methods that change a node. *)
Inductive call := Update | Sample (distrib : String.string).

Definition is_update (c : call) : bool :=
  if c is Update then true else false.

Definition TauD_call N' D (s : TauD_Node.state F N' D K rng) (c : call) :
  TauD_Node.state F N' D K rng :=
  match c with
  | Update => TauD_Node.updateParameters log digamma s
  | Sample distrib => (TauD_Node.sample Gamma_sample distrib s).1
  end.

Definition TauN_call N D' (s : TauN_Node.state F N D' K rng) (c : call) :
  TauN_Node.state F N D' K rng :=
  match c with
  | Update => TauN_Node.updateParameters log digamma s
  | Sample distrib => (TauN_Node.sample Gamma_sample distrib s).1
  end.

(** The calls are made one after the other, the first of the list first. *)
Definition TauD_run N' D (calls : seq call)
    (s : TauD_Node.state F N' D K rng) : TauD_Node.state F N' D K rng :=
  foldl (@TauD_call N' D) s calls.

Definition TauN_run N D' (calls : seq call)
    (s : TauN_Node.state F N D' K rng) : TauN_Node.state F N D' K rng :=
  foldl (@TauN_call N D') s calls.

End Defs.
End Driver.

(** * Properties *)

(** ** Entries of the numpy operations *)

Section NumpyFacts.

Variable F : numFieldType.

Lemma dotE m p n (A : 'M[F]_(m, p)) (B : 'M[F]_(n, p)) i j :
  Numpy.dot A B^T i j = \sum_k A i k * B j k.
Proof. by rewrite /Numpy.dot mxE; apply: eq_bigr => k _; rewrite mxE. Qed.

Lemma squareE m n (A : 'M[F]_(m, n)) i j : Numpy.square A i j = A i j * A i j.
Proof. by rewrite /Numpy.square mxE. Qed.

Lemma multiplyE m n (A B : 'M[F]_(m, n)) i j :
  Numpy.multiply A B i j = A i j * B i j.
Proof. by rewrite /Numpy.multiply mxE. Qed.

Lemma zero_fillE m n (Y : 'M[F]_(m, n)) (mask : 'M[bool]_(m, n)) i j :
  Numpy.zero_fill Y mask i j = if mask i j then 0 else Y i j.
Proof. by rewrite /Numpy.zero_fill mxE. Qed.

Lemma sum_axis0E m n (A : 'M[F]_(m, n)) j :
  Numpy.sum_axis0 A 0 j = \sum_i A i j.
Proof. by rewrite /Numpy.sum_axis0 mxE. Qed.

Lemma sum_axis1E m n (A : 'M[F]_(m, n)) i :
  Numpy.sum_axis1 A 0 i = \sum_j A i j.
Proof. by rewrite /Numpy.sum_axis1 mxE. Qed.

Lemma ma_sum_axis0E m n (A : 'M[F]_(m, n)) (mask : 'M[bool]_(m, n)) j :
  Numpy.ma_data (Numpy.ma_sum_axis0 (Numpy.ma_array A mask)) 0 j
  = \sum_(i | ~~ mask i j) A i j.
Proof. by rewrite /Numpy.ma_sum_axis0 mxE. Qed.

Lemma ma_sum_axis1E m n (A : 'M[F]_(m, n)) (mask : 'M[bool]_(m, n)) i :
  Numpy.ma_data (Numpy.ma_sum_axis1 (Numpy.ma_array A mask)) 0 i
  = \sum_(j | ~~ mask i j) A i j.
Proof. by rewrite /Numpy.ma_sum_axis1 mxE. Qed.

(** The entry of a masked sum is masked when the slice is masked
    throughout. *)
Lemma ma_sum_axis0_mask m n (A : Numpy.MaskedArray F m n) j :
  Numpy.ma_mask (Numpy.ma_sum_axis0 A) 0 j = [forall i, Numpy.ma_mask A i j].
Proof. by rewrite /Numpy.ma_sum_axis0 mxE. Qed.

Lemma ma_sum_axis1_mask m n (A : Numpy.MaskedArray F m n) i :
  Numpy.ma_mask (Numpy.ma_sum_axis1 A) 0 i = [forall j, Numpy.ma_mask A i j].
Proof. by rewrite /Numpy.ma_sum_axis1 mxE. Qed.

(** The entries of the result of a masked operation. *)
Lemma ma_nomask_mask m n (A : 'M[F]_(m, n)) i j :
  Numpy.ma_mask (Numpy.ma_nomask A) i j = false.
Proof. by rewrite /Numpy.ma_nomask mxE. Qed.

Lemma ma_nomask_data m n (A : 'M[F]_(m, n)) :
  Numpy.ma_data (Numpy.ma_nomask A) = A.
Proof. by []. Qed.

Lemma ma_binary_mask f m n (A B : Numpy.MaskedArray F m n) i j :
  Numpy.ma_mask (Numpy.ma_binary f A B) i j
  = Numpy.ma_mask A i j || Numpy.ma_mask B i j.
Proof. by rewrite /Numpy.ma_binary mxE. Qed.

Lemma ma_binary_data f m n (A B : Numpy.MaskedArray F m n) i j :
  Numpy.ma_data (Numpy.ma_binary f A B) i j
  = if Numpy.ma_mask A i j || Numpy.ma_mask B i j then Numpy.ma_data A i j
    else f (Numpy.ma_data A i j) (Numpy.ma_data B i j).
Proof. by rewrite /Numpy.ma_binary !mxE. Qed.

Lemma ma_divide_mask m n (A : Numpy.MaskedArray F m n) i j :
  Numpy.ma_mask (Numpy.ma_divide A 2%:R) i j = Numpy.ma_mask A i j.
Proof. by rewrite /Numpy.ma_divide mxE pnatr_eq0 orbF. Qed.

Lemma ma_divide_data m n (A : Numpy.MaskedArray F m n) i j :
  Numpy.ma_data (Numpy.ma_divide A 2%:R) i j
  = if Numpy.ma_mask A i j then Numpy.ma_data A i j
    else Numpy.ma_data A i j / 2%:R.
Proof. by rewrite /Numpy.ma_divide !mxE pnatr_eq0 orbF. Qed.

(** A sum over the zero-filled array is a sum over the entries that are
    present. *)
Lemma sum_square_zero_fill m n (Y : 'M[F]_(m, n)) (mask : 'M[bool]_(m, n)) j :
  \sum_i Numpy.square (Numpy.zero_fill Y mask) i j
  = \sum_(i | ~~ mask i j) Y i j * Y i j.
Proof.
rewrite [RHS]big_mkcond /=; apply: eq_bigr => i _.
by rewrite squareE zero_fillE; case: (mask i j); rewrite ?mulr0.
Qed.

Lemma sum_multiply_zero_fill m n (Y B : 'M[F]_(m, n))
    (mask : 'M[bool]_(m, n)) j :
  \sum_i Numpy.multiply (Numpy.zero_fill Y mask) B i j
  = \sum_(i | ~~ mask i j) Y i j * B i j.
Proof.
rewrite [RHS]big_mkcond /=; apply: eq_bigr => i _.
by rewrite multiplyE zero_fillE; case: (mask i j); rewrite ?mul0r.
Qed.

Lemma sum_square_zero_fill_row m n (Y : 'M[F]_(m, n))
    (mask : 'M[bool]_(m, n)) i :
  \sum_j Numpy.square (Numpy.zero_fill Y mask) i j
  = \sum_(j | ~~ mask i j) Y i j * Y i j.
Proof.
rewrite [RHS]big_mkcond /=; apply: eq_bigr => j _.
by rewrite squareE zero_fillE; case: (mask i j); rewrite ?mulr0.
Qed.

Lemma sum_multiply_zero_fill_row m n (Y B : 'M[F]_(m, n))
    (mask : 'M[bool]_(m, n)) i :
  \sum_j Numpy.multiply (Numpy.zero_fill Y mask) B i j
  = \sum_(j | ~~ mask i j) Y i j * B i j.
Proof.
rewrite [RHS]big_mkcond /=; apply: eq_bigr => j _.
by rewrite multiplyE zero_fillE; case: (mask i j); rewrite ?mul0r.
Qed.

(** The masked entries of a column are at most its length, and the rest
    are the entries that are present. *)
Lemma mask_sum_axis0_le m n (mask : 'M[bool]_(m, n)) j :
  (Numpy.mask_sum_axis0 mask ord0 j <= m)%N.
Proof.
rewrite mxE -[X in (_ <= X)%N]card_ord -sum1_card.
by apply: leq_sum => i _; case: (mask i j).
Qed.

Lemma mask_sum_axis1_le m n (mask : 'M[bool]_(m, n)) i :
  (Numpy.mask_sum_axis1 mask ord0 i <= n)%N.
Proof.
rewrite mxE -[X in (_ <= X)%N]card_ord -sum1_card.
by apply: leq_sum => j _; case: (mask i j).
Qed.

Lemma rsub_mask_sum_axis0 m n (mask : 'M[bool]_(m, n)) j :
  Numpy.rsub m (Numpy.mask_sum_axis0 mask) 0 j
  = Reference.present_in_column mask j.
Proof.
rewrite /Numpy.rsub /Reference.present_in_column !mxE.
have le_m := mask_sum_axis0_le mask j; rewrite mxE in le_m.
apply/eqP; rewrite -(eqn_add2l (\sum_i mask i j)%N) (subnKC le_m).
rewrite -big_split /= -[X in X == _]card_ord -sum1_card.
by apply/eqP/eq_bigr => i _; case: (mask i j).
Qed.

Lemma rsub_mask_sum_axis1 m n (mask : 'M[bool]_(m, n)) i :
  Numpy.rsub n (Numpy.mask_sum_axis1 mask) 0 i
  = Reference.present_in_row mask i.
Proof.
rewrite /Numpy.rsub /Reference.present_in_row !mxE.
have le_n := mask_sum_axis1_le mask i; rewrite mxE in le_n.
apply/eqP; rewrite -(eqn_add2l (\sum_j mask i j)%N) (subnKC le_n).
rewrite -big_split /= -[X in X == _]card_ord -sum1_card.
by apply/eqP/eq_bigr => j _; case: (mask i j).
Qed.

End NumpyFacts.

(** ** The store *)

Arguments Core.deref : simpl never.

Section HeapFacts.

Variables (F : numFieldType) (N D : nat).
Implicit Types (h : Core.heap F N D) (g : Core.grid F N D) (l : Core.ref).

Lemma deref_rcons h g l :
  Core.deref (rcons h g) l = if l == size h then g else Core.deref h l.
Proof.
rewrite /Core.deref nth_rcons; case: ltngtP => // lt_h.
by rewrite nth_default // ltnW.
Qed.

Lemma deref_rcons_new h g : Core.deref (rcons h g) (size h) = g.
Proof. by rewrite deref_rcons eqxx. Qed.

Lemma deref_cat_old h h' l :
  (l < size h)%N -> Core.deref (h ++ h') l = Core.deref h l.
Proof. by move=> lt_l; rewrite /Core.deref nth_cat lt_l. Qed.

Lemma deref_cat_new h h' i :
  Core.deref (h ++ h') (size h + i)%N = Core.deref h' i.
Proof. by rewrite /Core.deref nth_cat ltnNge leq_addr /= addKn. Qed.

Lemma deref_cat_off h h' l i :
  l = (size h + i)%N -> Core.deref (h ++ h') l = Core.deref h' i.
Proof. by move=> ->; exact: deref_cat_new. Qed.

(** Writing into the array allocated last. *)
Lemma assign_last h g g' : Core.assign (rcons h g) (size h) g' = rcons h g'.
Proof. by rewrite /Core.assign; elim: h => [|x h IH] //=; rewrite IH. Qed.

Lemma deref_map_trmx h l :
  Core.deref [seq x^T | x <- h] l = (Core.deref h l)^T.
Proof.
rewrite /Core.deref; case: (ltnP l (size h)) => lt_l.
  by rewrite (nth_map 0).
by rewrite !nth_default ?size_map // trmx0.
Qed.

End HeapFacts.

(** ** The expansion of the squared residual *)

Section ReferenceFacts.

Variables (F : numFieldType) (K : nat).

(** The double sum over [k] and [k'] with its diagonal replaced: the
    diagonal, plus the square of the sum, minus the sum of the squares. *)
Lemma cross_sum (a b : 'I_K -> F) :
  \sum_k \sum_k' (if k == k' then a k else b k * b k')
  = \sum_k a k + ((\sum_k b k) * (\sum_k b k) - \sum_k b k * b k).
Proof.
have step k : \sum_k' (if k == k' then a k else b k * b k')
              = a k - b k * b k + b k * \sum_k' b k'.
  rewrite (bigD1 k) //= eqxx mulr_sumr [in RHS](bigD1 k) //=.
  rewrite addrA subrK; congr (_ + _).
  by apply: eq_bigr => k' /negPf; rewrite eq_sym => ->.
rewrite (eq_bigr _ (fun k _ => step k)) !big_split /= sumrN -mulr_suml.
by ring.
Qed.

(** The four terms at one entry [(n, d)] that is present. *)
Lemma entry_residual N D (Y : 'M[F]_(N, D)) (W WW : 'M[F]_(D, K))
    (Z ZZ : 'M[F]_(N, K)) n d :
  Y n d * Y n d - 2%:R * (Y n d * Numpy.dot Z W^T n d)
  + Numpy.dot ZZ WW^T n d
  + (Numpy.dot Z W^T n d * Numpy.dot Z W^T n d
     - Numpy.dot (Numpy.square Z) (Numpy.square W)^T n d)
  = Reference.expected_sq_residual Y W WW Z ZZ n d.
Proof.
rewrite /Reference.expected_sq_residual /Reference.second_moment.
rewrite cross_sum !dotE.
have -> : \sum_k Numpy.square Z n k * Numpy.square W d k
          = \sum_k Z n k * W d k * (Z n k * W d k).
  by apply: eq_bigr => k _; rewrite !squareE; ring.
by ring.
Qed.

Lemma dot_trmx N D (W : 'M[F]_(D, K)) (Z : 'M[F]_(N, K)) n d :
  Numpy.dot W Z^T d n = Numpy.dot Z W^T n d.
Proof. by rewrite !dotE; apply: eq_bigr => k _; rewrite mulrC. Qed.

End ReferenceFacts.

(** ** The update of [TauD_Node] *)

Section TauDFacts.

Variables (F : numFieldType) (N' D K : nat).
Notation N := N'.+1.
Variables (log digamma : F -> F) (rng : Type).
Implicit Types (s : TauD_Node.state F N' D K rng).
Local Notation update := (TauD_Node.updateParameters log digamma).

(** The two halves of [term4], each a sum over the entries that are
    present. *)
Lemma TauD_dotd_masked (mask : 'M[bool]_(N, D)) (W : 'M[F]_(D, K))
    (Z : 'M[F]_(N, K)) d :
  let WZ := Numpy.ma_array (Numpy.dot W Z^T) mask^T in
  Numpy.ma_data (Utils.dotd WZ (Numpy.ma_T WZ)) 0 d
  = \sum_(n | ~~ mask n d) Numpy.dot Z W^T n d * Numpy.dot Z W^T n d.
Proof.
rewrite /Utils.dotd /Numpy.ma_sum_axis1 /Numpy.ma_multiply /Numpy.ma_T /=.
rewrite mxE; apply: eq_big => [n|n]; first by rewrite !mxE orbb.
rewrite !mxE orbb => /negbTE ->.
by congr (_ * _); apply: eq_bigr => k _; rewrite !mxE mulrC.
Qed.

Lemma TauD_dotd_mask (mask : 'M[bool]_(N, D)) (W : 'M[F]_(D, K))
    (Z : 'M[F]_(N, K)) d :
  let WZ := Numpy.ma_array (Numpy.dot W Z^T) mask^T in
  Numpy.ma_mask (Utils.dotd WZ (Numpy.ma_T WZ)) 0 d = [forall n, mask n d].
Proof.
rewrite /Utils.dotd /Numpy.ma_sum_axis1 /Numpy.ma_multiply /Numpy.ma_T /=.
by rewrite mxE; apply: eq_forallb => n; rewrite !mxE orbb.
Qed.


(** The sum of the four terms is the expected squared residual, summed
    over the entries of the column that are present. *)
Lemma TauD_residualE (Y : 'M[F]_(N, D)) (mask : 'M[bool]_(N, D))
    (W WW : 'M[F]_(D, K)) (Z ZZ : 'M[F]_(N, K)) d :
  Numpy.ma_data (TauD_Node.residual (Numpy.zero_fill Y mask) mask W WW Z ZZ)
    0 d
  = \sum_(n | ~~ mask n d) Reference.expected_sq_residual Y W WW Z ZZ n d.
Proof.
rewrite /TauD_Node.residual /Numpy.ma_add /Numpy.ma_subtract.
set t1 := Numpy.sum_axis0 _; set t2 := Numpy.sum_axis0 _.
set t3 := Numpy.ma_sum_axis0 _; set t4 := Utils.dotd _ _.
set t5 := Numpy.ma_sum_axis0 _.
have t12E : (t1 - 2%:R *: t2) 0 d
            = \sum_(n | ~~ mask n d)
                 (Y n d * Y n d - 2%:R * (Y n d * Numpy.dot Z W^T n d)).
  rewrite /t1 /t2 /Numpy.sum_axis0 !mxE.
  by rewrite sum_square_zero_fill sum_multiply_zero_fill mulr_sumr -sumrB.
have m3 : Numpy.ma_mask t3 0 d = [forall n, mask n d].
  by rewrite ma_sum_axis0_mask.
have m4 : Numpy.ma_mask t4 0 d = [forall n, mask n d].
  exact: TauD_dotd_mask.
have m5 : Numpy.ma_mask t5 0 d = [forall n, mask n d].
  by rewrite ma_sum_axis0_mask.
have d3 : Numpy.ma_data t3 0 d
          = \sum_(n | ~~ mask n d) Numpy.dot ZZ WW^T n d.
  exact: ma_sum_axis0E.
have d4 : Numpy.ma_data t4 0 d
          = \sum_(n | ~~ mask n d)
               Numpy.dot Z W^T n d * Numpy.dot Z W^T n d.
  exact: TauD_dotd_masked.
have d5 : Numpy.ma_data t5 0 d
          = \sum_(n | ~~ mask n d)
               Numpy.dot (Numpy.square Z) (Numpy.square W)^T n d.
  exact: ma_sum_axis0E.
clearbody t3 t4 t5.
rewrite !ma_binary_data !ma_binary_mask ma_nomask_mask ma_nomask_data.
rewrite m3 m4 m5 d3 d4 d5 t12E !orbb orFb.
case: (boolP [forall n, mask n d]) => [/forallP masked|_] /=.
  by rewrite !big_pred0 // => n; rewrite masked.
rewrite -!sumrB -!big_split /=.
by apply: eq_bigr => n _; rewrite -entry_residual.
Qed.

(** The entry of [tmp] is masked when the column is masked throughout,
    and then only. *)
Lemma TauD_residual_mask (Y : 'M[F]_(N, D)) (mask : 'M[bool]_(N, D))
    (W WW : 'M[F]_(D, K)) (Z ZZ : 'M[F]_(N, K)) d :
  Numpy.ma_mask (TauD_Node.residual Y mask W WW Z ZZ) 0 d
  = [forall n, mask n d].
Proof.
rewrite /TauD_Node.residual /Numpy.ma_add /Numpy.ma_subtract.
rewrite !ma_binary_mask ma_nomask_mask !ma_sum_axis0_mask.
by rewrite (TauD_dotd_mask mask W Z d) /= !orbb.
Qed.

(** The entries of the parameters that [posterior] returns.  The rate is
    masked where [tmp] is; its data are the prior rate plus half the data
    of [tmp], also under the mask, where the data of [tmp] are zero and
    numpy puts the prior rate back. *)
Lemma TauD_posterior_Qa (Y : 'M[F]_(N, D)) mask (W WW : 'M[F]_(D, K))
    (Z ZZ : 'M[F]_(N, K)) Pa Pb n d :
  (TauD_Node.posterior N Y mask W WW Z ZZ Pa Pb).1 n d
  = Pa n d + (Reference.present_in_column mask d)%:R / 2%:R.
Proof.
rewrite /TauD_Node.posterior /=.
rewrite mxE /Numpy.divide /Numpy.to_float /Numpy.repeat_axis0 3!mxE.
by rewrite rsub_mask_sum_axis0.
Qed.

Lemma TauD_posterior_Qb_mask shape0 (Y : 'M[F]_(N, D)) mask
    (W WW : 'M[F]_(D, K)) (Z ZZ : 'M[F]_(N, K)) Pa Pb n d :
  Numpy.ma_mask (TauD_Node.posterior shape0 Y mask W WW Z ZZ Pa Pb).2 n d
  = [forall i, mask i d].
Proof.
rewrite /TauD_Node.posterior /Numpy.ma_add.
rewrite ma_binary_mask ma_nomask_mask ma_divide_mask.
rewrite /Numpy.ma_repeat_axis0 /Numpy.repeat_axis0 [Numpy.ma_mask _]/= mxE.
exact: TauD_residual_mask.
Qed.

Lemma TauD_posterior_Qb shape0 (Y : 'M[F]_(N, D)) mask
    (W WW : 'M[F]_(D, K)) (Z ZZ : 'M[F]_(N, K)) Pa Pb n d :
  Numpy.ma_data
    (TauD_Node.posterior shape0 (Numpy.zero_fill Y mask) mask
       W WW Z ZZ Pa Pb).2 n d
  = Pb n d
    + (\sum_(i | ~~ mask i d)
         Reference.expected_sq_residual Y W WW Z ZZ i d) / 2%:R.
Proof.
have := TauD_posterior_Qb_mask shape0 (Numpy.zero_fill Y mask) mask
          W WW Z ZZ Pa Pb n d.
rewrite /TauD_Node.posterior /Numpy.ma_add.
set tmp := TauD_Node.residual _ _ _ _ _ _.
have tmpE : Numpy.ma_data tmp 0 d
            = \sum_(i | ~~ mask i d)
                 Reference.expected_sq_residual Y W WW Z ZZ i d.
  exact: TauD_residualE.
have tmpM : Numpy.ma_mask tmp 0 d = [forall i, mask i d].
  exact: TauD_residual_mask.
clearbody tmp; rewrite ma_binary_data ma_binary_mask => ->.
rewrite ma_nomask_data ma_divide_data.
rewrite /Numpy.ma_repeat_axis0 /Numpy.repeat_axis0.
rewrite [Numpy.ma_mask _]/= [Numpy.ma_data _]/= !mxE tmpM tmpE.
case: (boolP [forall i, mask i d]) => [/forallP masked|_] //=.
by rewrite big_pred0 ?mul0r ?addr0 // => i; rewrite masked.
Qed.

Local Opaque TauD_Node.posterior.

(** The update, in one equation: the copy of [Y] is zero-filled at a new
    location, the new parameters and their expectations follow it. *)
Lemma TauD_update_eq s :
  update s
  = let t := TauD_Node.self s in
    let nd := TauD_Node.base t in
    let n := size (TauD_Node.mem s) in
    let Y0 := Numpy.zero_fill (TauD_Node.Y s) (TauD_Node.mask s) in
    let h2 := rcons (TauD_Node.mem s) Y0 in
    let QQ :=
      TauD_Node.posterior N Y0 (TauD_Node.mask s)
        (TauD_Node.W s) (TauD_Node.WW s) (TauD_Node.Z s) (TauD_Node.ZZ s)
        (Core.deref h2 (Core.params_a (Core.P nd)))
        (Core.deref h2 (Core.params_b (Core.P nd))) in
    let Qb := Numpy.ma_data QQ.2 in
    TauD_Node.mkState
      (h2 ++ [:: QQ.1; Qb;
                 \matrix_(i, j) (QQ.1 i j / Qb i j);
                 \matrix_(i, j) (digamma (QQ.1 i j) - log (Qb i j)) ])
      {| TauD_Node.base :=
           Core.mkNode (Core.dim nd) (Core.P nd)
             (Core.mkGamma n.+1 n.+2 n.+3 n.+4) (Core.markov_blanket nd);
         TauD_Node.self_N := TauD_Node.self_N t;
         TauD_Node.lbconst := TauD_Node.lbconst t;
         TauD_Node.samp := TauD_Node.samp t |}
      (TauD_Node.random_state s).
Proof.
case: s => h [[dm P Q mb] sN lb sm] g.
rewrite /TauD_Node.updateParameters /TauD_Node.Y /TauD_Node.mask
  /TauD_Node.W /TauD_Node.WW /TauD_Node.Z /TauD_Node.ZZ /=.
case: (Core.blanket_factors mb) => Wtmp Ztmp /=.
rewrite assign_last !size_rcons !deref_rcons_new.
case: (TauD_Node.posterior _ _ _ _ _ _ _ _ _) => Qa Qb /=.
by rewrite !size_rcons -!cats1 -!catA.
Qed.

(** The store after the update: the five arrays the update creates come
    after the arrays that were there, none of which is written. *)
Lemma TauD_update_mem s : TauD_Node.wf s ->
  TauD_Node.mem (update s)
  = TauD_Node.mem s ++
    [:: Numpy.zero_fill (TauD_Node.Y s) (TauD_Node.mask s);
        (TauD_Node.new_posterior s).1;
        Numpy.ma_data (TauD_Node.new_posterior s).2;
        \matrix_(i, j) ((TauD_Node.new_posterior s).1 i j
                        / Numpy.ma_data (TauD_Node.new_posterior s).2 i j);
        \matrix_(i, j) (digamma ((TauD_Node.new_posterior s).1 i j)
                        - log (Numpy.ma_data (TauD_Node.new_posterior s).2
                                 i j)) ].
Proof.
case/and5P=> ltPa ltPb _ _ _; rewrite TauD_update_eq /= -cats1 -catA /=.
rewrite /TauD_Node.new_posterior /TauD_Node.Pa /TauD_Node.Pb.
by rewrite /= !deref_cat_old.
Qed.

(** The node after the update: the posterior refers to the new arrays,
    the other fields are those of the node before. *)
Lemma TauD_update_self s :
  TauD_Node.self (update s)
  = let t := TauD_Node.self s in
    let nd := TauD_Node.base t in
    let n := size (TauD_Node.mem s) in
    {| TauD_Node.base :=
         Core.mkNode (Core.dim nd) (Core.P nd)
           (Core.mkGamma n.+1 n.+2 n.+3 n.+4) (Core.markov_blanket nd);
       TauD_Node.self_N := TauD_Node.self_N t;
       TauD_Node.lbconst := TauD_Node.lbconst t;
       TauD_Node.samp := TauD_Node.samp t |}.
Proof. by rewrite TauD_update_eq. Qed.

Lemma TauD_update_random s :
  TauD_Node.random_state (update s) = TauD_Node.random_state s.
Proof. by rewrite TauD_update_eq. Qed.

Lemma TauD_update_frame s l : TauD_Node.wf s ->
  (l < size (TauD_Node.mem s))%N ->
  Core.deref (TauD_Node.mem (update s)) l = Core.deref (TauD_Node.mem s) l.
Proof. by move=> wf_s lt_l; rewrite TauD_update_mem // deref_cat_old. Qed.

Lemma TauD_update_Pa s : TauD_Node.wf s ->
  TauD_Node.Pa (update s) = TauD_Node.Pa s.
Proof.
move=> wf_s; rewrite /TauD_Node.Pa TauD_update_self TauD_update_frame //=.
by case/and5P: wf_s.
Qed.

Lemma TauD_update_Pb s : TauD_Node.wf s ->
  TauD_Node.Pb (update s) = TauD_Node.Pb s.
Proof.
move=> wf_s; rewrite /TauD_Node.Pb TauD_update_self TauD_update_frame //=.
by case/and5P: wf_s.
Qed.

Lemma TauD_update_Y s : TauD_Node.wf s ->
  TauD_Node.Y (update s) = TauD_Node.Y s.
Proof.
move=> wf_s; rewrite /TauD_Node.Y TauD_update_self TauD_update_frame //=.
by case/and5P: wf_s => _ _ _ _ /and3P[].
Qed.

Lemma TauD_update_Qa s : TauD_Node.wf s ->
  TauD_Node.Qa (update s) = (TauD_Node.new_posterior s).1.
Proof.
move=> wf_s; rewrite /TauD_Node.Qa TauD_update_self [Core.params_a _]/=.
by rewrite TauD_update_mem // -[X in Core.deref _ X]addn1 deref_cat_new.
Qed.

Lemma TauD_update_Qb s : TauD_Node.wf s ->
  TauD_Node.Qb (update s) = Numpy.ma_data (TauD_Node.new_posterior s).2.
Proof.
move=> wf_s; rewrite /TauD_Node.Qb TauD_update_self [Core.params_b _]/=.
by rewrite TauD_update_mem // -[X in Core.deref _ X]addn2 deref_cat_new.
Qed.

Lemma TauD_update_wf s : TauD_Node.wf s -> TauD_Node.wf (update s).
Proof.
move=> wf_s; rewrite /TauD_Node.wf TauD_update_self /= TauD_update_mem //.
rewrite size_cat /=.
case/and5P: wf_s => ltPa ltPb _ _ /and3P[_ _ ltY].
rewrite !(ltn_addr _ ltPa, ltn_addr _ ltPb, ltn_addr _ ltY) /=.
by elim: (size _) => {ltPa ltPb ltY} // n; rewrite !addSn !ltnS.
Qed.

(** The entries of the new parameters. *)
Lemma TauD_new_Qa s n d :
  (TauD_Node.new_posterior s).1 n d
  = TauD_Node.Pa s n d
    + (Reference.present_in_column (TauD_Node.mask s) d)%:R / 2%:R.
Proof. exact: TauD_posterior_Qa. Qed.

Lemma TauD_tmp_mask s d :
  Numpy.ma_mask (TauD_Node.tmp s) 0 d = [forall n, TauD_Node.mask s n d].
Proof. exact: TauD_residual_mask. Qed.


Lemma TauD_new_Qb s n d :
  Numpy.ma_data (TauD_Node.new_posterior s).2 n d
  = TauD_Node.Pb s n d + Numpy.ma_data (TauD_Node.tmp s) 0 d / 2%:R.
Proof.
by rewrite /TauD_Node.new_posterior TauD_posterior_Qb /TauD_Node.tmp
  TauD_residualE.
Qed.


End TauDFacts.

(** ** The update of [TauN_Node] *)

Section TauNFacts.

Variables (F : numFieldType) (N D' K : nat).
Notation D := D'.+1.
Variables (log digamma : F -> F) (rng : Type).
Implicit Types (s : TauN_Node.state F N D' K rng).
Local Notation update := (TauN_Node.updateParameters log digamma).

(** The two halves of [term4], each a sum over the entries that are
    present. *)
Lemma TauN_dotd_masked (mask : 'M[bool]_(N, D)) (W : 'M[F]_(D, K))
    (Z : 'M[F]_(N, K)) n :
  let ZW := Numpy.ma_array (Numpy.dot Z W^T) mask in
  Numpy.ma_data (Utils.dotd ZW (Numpy.ma_T ZW)) 0 n
  = \sum_(d | ~~ mask n d) Numpy.dot Z W^T n d * Numpy.dot Z W^T n d.
Proof.
rewrite /Utils.dotd /Numpy.ma_sum_axis1 /Numpy.ma_multiply /Numpy.ma_T /=.
set ZWd := Numpy.dot Z W^T.
rewrite mxE; apply: eq_big => [d|d]; first by rewrite !mxE orbb.
by rewrite !mxE orbb => /negbTE ->.
Qed.

Lemma TauN_dotd_mask (mask : 'M[bool]_(N, D)) (W : 'M[F]_(D, K))
    (Z : 'M[F]_(N, K)) n :
  let ZW := Numpy.ma_array (Numpy.dot Z W^T) mask in
  Numpy.ma_mask (Utils.dotd ZW (Numpy.ma_T ZW)) 0 n = [forall d, mask n d].
Proof.
rewrite /Utils.dotd /Numpy.ma_sum_axis1 /Numpy.ma_multiply /Numpy.ma_T /=.
by rewrite mxE; apply: eq_forallb => d; rewrite !mxE orbb.
Qed.

Lemma TauN_squares_masked (mask : 'M[bool]_(N, D)) (W : 'M[F]_(D, K))
    (Z : 'M[F]_(N, K)) n :
  Numpy.ma_data
    (Numpy.ma_sum_axis1
       (Numpy.ma_array (Numpy.dot (Numpy.square Z) (Numpy.square W)^T) mask))
    0 n
  = \sum_(d | ~~ mask n d) \sum_k (Z n k * Z n k) * (W d k * W d k).
Proof.
rewrite /Numpy.ma_sum_axis1 mxE /=; apply: eq_bigr => d _.
by rewrite dotE; apply: eq_bigr => k _; rewrite !squareE.
Qed.

(** The sum of the four terms is the expected squared residual, summed
    over the entries of the row that are present. *)
Lemma TauN_residualE (Y : 'M[F]_(N, D)) (mask : 'M[bool]_(N, D))
    (W WW : 'M[F]_(D, K)) (Z ZZ : 'M[F]_(N, K)) n :
  Numpy.ma_data (TauN_Node.residual (Numpy.zero_fill Y mask) mask W WW Z ZZ)
    0 n
  = \sum_(d | ~~ mask n d) Reference.expected_sq_residual Y W WW Z ZZ n d.
Proof.
rewrite /TauN_Node.residual /Numpy.ma_add /Numpy.ma_subtract.
set t1 := Numpy.sum_axis1 _; set t2 := Numpy.sum_axis1 _.
set t3 := Numpy.ma_sum_axis1 _; set t4 := Utils.dotd _ _.
set t5 := Numpy.ma_sum_axis1 _.
have t12E : (t1 - 2%:R *: t2) 0 n
            = \sum_(d | ~~ mask n d)
                 (Y n d * Y n d - 2%:R * (Y n d * Numpy.dot Z W^T n d)).
  rewrite /t1 /t2 /Numpy.sum_axis1 !mxE.
  rewrite sum_square_zero_fill_row sum_multiply_zero_fill_row.
  by rewrite mulr_sumr -sumrB.
have m3 : Numpy.ma_mask t3 0 n = [forall d, mask n d].
  by rewrite ma_sum_axis1_mask.
have m4 : Numpy.ma_mask t4 0 n = [forall d, mask n d].
  exact: TauN_dotd_mask.
have m5 : Numpy.ma_mask t5 0 n = [forall d, mask n d].
  by rewrite ma_sum_axis1_mask.
have d3 : Numpy.ma_data t3 0 n
          = \sum_(d | ~~ mask n d) Numpy.dot ZZ WW^T n d.
  exact: ma_sum_axis1E.
have d4 : Numpy.ma_data t4 0 n
          = \sum_(d | ~~ mask n d)
               Numpy.dot Z W^T n d * Numpy.dot Z W^T n d.
  exact: TauN_dotd_masked.
have d5 : Numpy.ma_data t5 0 n
          = \sum_(d | ~~ mask n d)
               Numpy.dot (Numpy.square Z) (Numpy.square W)^T n d.
  exact: ma_sum_axis1E.
clearbody t3 t4 t5.
rewrite !ma_binary_data !ma_binary_mask ma_nomask_mask ma_nomask_data.
rewrite m3 m4 m5 d3 d4 d5 t12E !orbb orFb.
case: (boolP [forall d, mask n d]) => [/forallP masked|_] /=.
  by rewrite !big_pred0 // => d; rewrite masked.
rewrite -!sumrB -!big_split /=.
by apply: eq_bigr => d _; rewrite -entry_residual.
Qed.

(** The entry of [tmp] is masked when the row is masked throughout, and
    then only. *)
Lemma TauN_residual_mask (Y : 'M[F]_(N, D)) (mask : 'M[bool]_(N, D))
    (W WW : 'M[F]_(D, K)) (Z ZZ : 'M[F]_(N, K)) n :
  Numpy.ma_mask (TauN_Node.residual Y mask W WW Z ZZ) 0 n
  = [forall d, mask n d].
Proof.
rewrite /TauN_Node.residual /Numpy.ma_add /Numpy.ma_subtract.
rewrite !ma_binary_mask ma_nomask_mask (TauN_dotd_mask mask W Z n).
by rewrite !ma_sum_axis1_mask /= !orbb.
Qed.

(** The entries of the parameters that [posterior] returns.  The rate is
    masked where [tmp] is; its data are the prior rate plus half the data
    of [tmp], also under the mask, where the data of [tmp] are zero and
    numpy puts the prior rate back. *)
Lemma TauN_posterior_Qa (Y : 'M[F]_(N, D)) mask (W WW : 'M[F]_(D, K))
    (Z ZZ : 'M[F]_(N, K)) Pa Pb n d :
  (TauN_Node.posterior D Y mask W WW Z ZZ Pa Pb).1 n d
  = Pa n d + (Reference.present_in_row mask n)%:R / 2%:R.
Proof.
rewrite /TauN_Node.posterior /=.
rewrite mxE /Numpy.divide /Numpy.to_float /Numpy.repeat_axis1 3!mxE.
by rewrite rsub_mask_sum_axis1.
Qed.

Lemma TauN_posterior_Qb_mask shape1 (Y : 'M[F]_(N, D)) mask
    (W WW : 'M[F]_(D, K)) (Z ZZ : 'M[F]_(N, K)) Pa Pb n d :
  Numpy.ma_mask (TauN_Node.posterior shape1 Y mask W WW Z ZZ Pa Pb).2 n d
  = [forall j, mask n j].
Proof.
rewrite /TauN_Node.posterior /Numpy.ma_add.
rewrite ma_binary_mask ma_nomask_mask ma_divide_mask.
rewrite /Numpy.ma_repeat_axis1 /Numpy.repeat_axis1 [Numpy.ma_mask _]/= mxE.
exact: TauN_residual_mask.
Qed.

Lemma TauN_posterior_Qb shape1 (Y : 'M[F]_(N, D)) mask
    (W WW : 'M[F]_(D, K)) (Z ZZ : 'M[F]_(N, K)) Pa Pb n d :
  Numpy.ma_data
    (TauN_Node.posterior shape1 (Numpy.zero_fill Y mask) mask
       W WW Z ZZ Pa Pb).2 n d
  = Pb n d
    + (\sum_(j | ~~ mask n j)
         Reference.expected_sq_residual Y W WW Z ZZ n j) / 2%:R.
Proof.
have := TauN_posterior_Qb_mask shape1 (Numpy.zero_fill Y mask) mask
          W WW Z ZZ Pa Pb n d.
rewrite /TauN_Node.posterior /Numpy.ma_add.
set tmp := TauN_Node.residual _ _ _ _ _ _.
have tmpE : Numpy.ma_data tmp 0 n
            = \sum_(j | ~~ mask n j)
                 Reference.expected_sq_residual Y W WW Z ZZ n j.
  exact: TauN_residualE.
have tmpM : Numpy.ma_mask tmp 0 n = [forall j, mask n j].
  exact: TauN_residual_mask.
clearbody tmp; rewrite ma_binary_data ma_binary_mask => ->.
rewrite ma_nomask_data ma_divide_data.
rewrite /Numpy.ma_repeat_axis1 /Numpy.repeat_axis1.
rewrite [Numpy.ma_mask _]/= [Numpy.ma_data _]/= !mxE tmpM tmpE.
case: (boolP [forall j, mask n j]) => [/forallP masked|_] //=.
by rewrite big_pred0 ?mul0r ?addr0 // => j; rewrite masked.
Qed.

Local Opaque TauN_Node.posterior.

(** The update, in one equation: the copy of [Y] is zero-filled at a new
    location, the new parameters and their expectations follow it. *)
Lemma TauN_update_eq s :
  update s
  = let t := TauN_Node.self s in
    let nd := TauN_Node.base t in
    let n := size (TauN_Node.mem s) in
    let Y0 := Numpy.zero_fill (TauN_Node.Y s) (TauN_Node.mask s) in
    let h2 := rcons (TauN_Node.mem s) Y0 in
    let QQ :=
      TauN_Node.posterior D Y0 (TauN_Node.mask s)
        (TauN_Node.W s) (TauN_Node.WW s) (TauN_Node.Z s) (TauN_Node.ZZ s)
        (Core.deref h2 (Core.params_a (Core.P nd)))
        (Core.deref h2 (Core.params_b (Core.P nd))) in
    let Qb := Numpy.ma_data QQ.2 in
    TauN_Node.mkState
      (h2 ++ [:: QQ.1; Qb;
                 \matrix_(i, j) (QQ.1 i j / Qb i j);
                 \matrix_(i, j) (digamma (QQ.1 i j) - log (Qb i j)) ])
      {| TauN_Node.base :=
           Core.mkNode (Core.dim nd) (Core.P nd)
             (Core.mkGamma n.+1 n.+2 n.+3 n.+4) (Core.markov_blanket nd);
         TauN_Node.self_D := TauN_Node.self_D t;
         TauN_Node.lbconst := TauN_Node.lbconst t;
         TauN_Node.samp := TauN_Node.samp t |}
      (TauN_Node.random_state s).
Proof.
case: s => h [[dm P Q mb] sD lb sm] g.
rewrite /TauN_Node.updateParameters /TauN_Node.Y /TauN_Node.mask
  /TauN_Node.W /TauN_Node.WW /TauN_Node.Z /TauN_Node.ZZ /=.
case: (Core.blanket_factors mb) => Wtmp Ztmp /=.
rewrite assign_last !size_rcons !deref_rcons_new.
case: (TauN_Node.posterior _ _ _ _ _ _ _ _ _) => Qa Qb /=.
by rewrite !size_rcons -!cats1 -!catA.
Qed.

(** The store after the update: the five arrays the update creates come
    after the arrays that were there, none of which is written. *)
Lemma TauN_update_mem s : TauN_Node.wf s ->
  TauN_Node.mem (update s)
  = TauN_Node.mem s ++
    [:: Numpy.zero_fill (TauN_Node.Y s) (TauN_Node.mask s);
        (TauN_Node.new_posterior s).1;
        Numpy.ma_data (TauN_Node.new_posterior s).2;
        \matrix_(i, j) ((TauN_Node.new_posterior s).1 i j
                        / Numpy.ma_data (TauN_Node.new_posterior s).2 i j);
        \matrix_(i, j) (digamma ((TauN_Node.new_posterior s).1 i j)
                        - log (Numpy.ma_data (TauN_Node.new_posterior s).2
                                 i j)) ].
Proof.
case/and5P=> ltPa ltPb _ _ _; rewrite TauN_update_eq /= -cats1 -catA /=.
rewrite /TauN_Node.new_posterior /TauN_Node.Pa /TauN_Node.Pb.
by rewrite /= !deref_cat_old.
Qed.

(** The node after the update: the posterior refers to the new arrays,
    the other fields are those of the node before. *)
Lemma TauN_update_self s :
  TauN_Node.self (update s)
  = let t := TauN_Node.self s in
    let nd := TauN_Node.base t in
    let n := size (TauN_Node.mem s) in
    {| TauN_Node.base :=
         Core.mkNode (Core.dim nd) (Core.P nd)
           (Core.mkGamma n.+1 n.+2 n.+3 n.+4) (Core.markov_blanket nd);
       TauN_Node.self_D := TauN_Node.self_D t;
       TauN_Node.lbconst := TauN_Node.lbconst t;
       TauN_Node.samp := TauN_Node.samp t |}.
Proof. by rewrite TauN_update_eq. Qed.

Lemma TauN_update_random s :
  TauN_Node.random_state (update s) = TauN_Node.random_state s.
Proof. by rewrite TauN_update_eq. Qed.

Lemma TauN_update_frame s l : TauN_Node.wf s ->
  (l < size (TauN_Node.mem s))%N ->
  Core.deref (TauN_Node.mem (update s)) l = Core.deref (TauN_Node.mem s) l.
Proof. by move=> wf_s lt_l; rewrite TauN_update_mem // deref_cat_old. Qed.

Lemma TauN_update_Pa s : TauN_Node.wf s ->
  TauN_Node.Pa (update s) = TauN_Node.Pa s.
Proof.
move=> wf_s; rewrite /TauN_Node.Pa TauN_update_self TauN_update_frame //=.
by case/and5P: wf_s.
Qed.

Lemma TauN_update_Pb s : TauN_Node.wf s ->
  TauN_Node.Pb (update s) = TauN_Node.Pb s.
Proof.
move=> wf_s; rewrite /TauN_Node.Pb TauN_update_self TauN_update_frame //=.
by case/and5P: wf_s.
Qed.

Lemma TauN_update_Y s : TauN_Node.wf s ->
  TauN_Node.Y (update s) = TauN_Node.Y s.
Proof.
move=> wf_s; rewrite /TauN_Node.Y TauN_update_self TauN_update_frame //=.
by case/and5P: wf_s => _ _ _ _ /and3P[].
Qed.

Lemma TauN_update_Qa s : TauN_Node.wf s ->
  TauN_Node.Qa (update s) = (TauN_Node.new_posterior s).1.
Proof.
move=> wf_s; rewrite /TauN_Node.Qa TauN_update_self [Core.params_a _]/=.
by rewrite TauN_update_mem // -[X in Core.deref _ X]addn1 deref_cat_new.
Qed.

Lemma TauN_update_Qb s : TauN_Node.wf s ->
  TauN_Node.Qb (update s) = Numpy.ma_data (TauN_Node.new_posterior s).2.
Proof.
move=> wf_s; rewrite /TauN_Node.Qb TauN_update_self [Core.params_b _]/=.
by rewrite TauN_update_mem // -[X in Core.deref _ X]addn2 deref_cat_new.
Qed.

Lemma TauN_update_wf s : TauN_Node.wf s -> TauN_Node.wf (update s).
Proof.
move=> wf_s; rewrite /TauN_Node.wf TauN_update_self /= TauN_update_mem //.
rewrite size_cat /=.
case/and5P: wf_s => ltPa ltPb _ _ /and3P[_ _ ltY].
rewrite !(ltn_addr _ ltPa, ltn_addr _ ltPb, ltn_addr _ ltY) /=.
by elim: (size _) => {ltPa ltPb ltY} // n; rewrite !addSn !ltnS.
Qed.

(** The entries of the new parameters. *)
Lemma TauN_new_Qa s n d :
  (TauN_Node.new_posterior s).1 n d
  = TauN_Node.Pa s n d
    + (Reference.present_in_row (TauN_Node.mask s) n)%:R / 2%:R.
Proof. exact: TauN_posterior_Qa. Qed.

Lemma TauN_tmp_mask s n :
  Numpy.ma_mask (TauN_Node.tmp s) 0 n = [forall d, TauN_Node.mask s n d].
Proof. exact: TauN_residual_mask. Qed.


Lemma TauN_new_Qb s n d :
  Numpy.ma_data (TauN_Node.new_posterior s).2 n d
  = TauN_Node.Pb s n d + Numpy.ma_data (TauN_Node.tmp s) 0 n / 2%:R.
Proof.
by rewrite /TauN_Node.new_posterior TauN_posterior_Qb /TauN_Node.tmp
  TauN_residualE.
Qed.

(** What reading an entry of [tmp] gives: the constant [masked] on a
    row that is masked throughout, the number otherwise. *)
Lemma TauN_tmp_get s n :
  Numpy.ma_get (TauN_Node.tmp s) 0 n
  = if [forall d, TauN_Node.mask s n d] then None
    else Some (\sum_(d | ~~ TauN_Node.mask s n d)
                 Reference.expected_sq_residual (TauN_Node.Y s)
                   (TauN_Node.W s) (TauN_Node.WW s)
                   (TauN_Node.Z s) (TauN_Node.ZZ s) n d).
Proof.
by rewrite /Numpy.ma_get TauN_tmp_mask /TauN_Node.tmp TauN_residualE.
Qed.

End TauNFacts.

(** ** The constructors and the term of the lower bound *)

Section InitFacts.

Variables (F : numFieldType) (N D K : nat) (log digamma : F -> F).
Implicit Types (h : Core.heap F N D) (mb : Core.MarkovBlanket F N D K).

Lemma Node_new_mem h mb pa pb qa qb qE :
  (Core.Node_new log digamma h mb pa pb qa qb qE).2
  = h ++ [:: pa; pb;
             \matrix_(i, j) (pa i j / pb i j);
             \matrix_(i, j) (digamma (pa i j) - log (pb i j));
             qa; qb;
             (if qE is Some e then e else \matrix_(i, j) (qa i j / qb i j));
             \matrix_(i, j) (digamma (qa i j) - log (qb i j)) ].
Proof. by rewrite /Core.Node_new /= -!cats1 -!catA. Qed.

Lemma Node_new_node h mb pa pb qa qb qE :
  (Core.Node_new log digamma h mb pa pb qa qb qE).1
  = let n := size h in
    Core.mkNode (N, D) (Core.mkGamma n n.+1 n.+2 n.+3)
      (Core.mkGamma n.+4 n.+4.+1 n.+4.+2 n.+4.+3) mb.
Proof. by rewrite /Core.Node_new /= !size_rcons. Qed.

End InitFacts.

Section TauDInit.

Variables (F : numFieldType) (N' D K : nat).
Notation N := N'.+1.
Variables (log gammaln digamma : F -> F) (rng : Type).
Implicit Types (s : TauD_Node.state F N' D K rng).
Implicit Types (h : Core.heap F N D) (mb : Core.MarkovBlanket F N D K).
Implicit Types (pa pb qa qb : Core.grid F N D).
Local Notation update :=
  (@TauD_Node.updateParameters F N' D K log digamma rng).
Local Notation init := (TauD_Node.init log gammaln digamma).

Lemma TauD_init_wf h mb pa pb qa qb qE (g : rng) :
  (Core.Y_data (Core.blanket_Y mb) < size h)%N ->
  TauD_Node.wf (init h mb pa pb qa qb qE g).
Proof.
move=> ltY; rewrite /TauD_Node.init.
have := Node_new_mem log digamma h mb pa pb qa qb qE.
have := Node_new_node log digamma h mb pa pb qa qb qE.
case: (Core.Node_new _ _ _ _ _ _ _ _ _) => nd h1 /= -> ->.
rewrite /TauD_Node.wf /= size_cat /= (ltn_addr _ ltY) andbT.
by elim: (size h) => {ltY} // n; rewrite !addSn !ltnS.
Qed.

Lemma TauD_init_prior h mb pa pb qa qb qE (g : rng) :
  let s := init h mb pa pb qa qb qE g in
  [/\ TauD_Node.Pa s = pa, TauD_Node.Pb s = pb
     & TauD_Node.lbconst (TauD_Node.self s)
       = \sum_d (pa 0 d * log (pb 0 d) - gammaln (pa 0 d))].
Proof.
rewrite /TauD_Node.init.
have := Node_new_mem log digamma h mb pa pb qa qb qE.
have := Node_new_node log digamma h mb pa pb qa qb qE.
case: (Core.Node_new _ _ _ _ _ _ _ _ _) => nd h1 /= -> ->.
rewrite /TauD_Node.Pa /TauD_Node.Pb /=.
rewrite (@deref_cat_off _ _ _ _ _ _ 0) ?addn0 //.
rewrite (@deref_cat_off _ _ _ _ _ _ 1) ?addn1 //.
split=> //; rewrite /Numpy.sum_all; apply: eq_bigr => d _.
by rewrite !mxE.
Qed.

Lemma TauD_init_posterior h mb pa pb qa qb qE (g : rng) :
  let s := init h mb pa pb qa qb qE g in
  [/\ TauD_Node.Qa s = qa, TauD_Node.Qb s = qb,
      Core.markov_blanket (TauD_Node.base (TauD_Node.self s)) = mb,
      Core.dim (TauD_Node.base (TauD_Node.self s)) = (N, D)
    & TauD_Node.random_state s = g].
Proof.
rewrite /TauD_Node.init.
have := Node_new_mem log digamma h mb pa pb qa qb qE.
have := Node_new_node log digamma h mb pa pb qa qb qE.
case: (Core.Node_new _ _ _ _ _ _ _ _ _) => nd h1 /= -> ->.
rewrite /TauD_Node.Qa /TauD_Node.Qb /=.
rewrite (@deref_cat_off _ _ _ _ _ _ 4) ?addn4 //.
by rewrite (@deref_cat_off _ _ _ _ _ _ 5) ?addn4 ?addnS ?addn0.
Qed.

Lemma TauD_init_Y h mb pa pb qa qb qE (g : rng) :
  (Core.Y_data (Core.blanket_Y mb) < size h)%N ->
  TauD_Node.Y (init h mb pa pb qa qb qE g)
  = Core.deref h (Core.Y_data (Core.blanket_Y mb)).
Proof.
move=> ltY; rewrite /TauD_Node.init.
have := Node_new_mem log digamma h mb pa pb qa qb qE.
have := Node_new_node log digamma h mb pa pb qa qb qE.
case: (Core.Node_new _ _ _ _ _ _ _ _ _) => nd h1 /= -> ->.
by rewrite /TauD_Node.Y /= deref_cat_old.
Qed.

Lemma TauD_init_lbconst h mb pa pb qa qb qE (g : rng) :
  let s := init h mb pa pb qa qb qE g in
  TauD_Node.lbconst (TauD_Node.self s)
  = TauD_Node.lbconst
      (TauD_Node.precompute log gammaln (TauD_Node.mem s)
         (TauD_Node.base (TauD_Node.self s))).
Proof.
rewrite /TauD_Node.init.
by case: (Core.Node_new _ _ _ _ _ _ _ _ _) => nd h1.
Qed.

(** The constant that [precompute] would give on the prior of a state. *)
Lemma TauD_precompute_lbconst s :
  TauD_Node.lbconst
    (TauD_Node.precompute log gammaln (TauD_Node.mem s)
       (TauD_Node.base (TauD_Node.self s)))
  = \sum_d (TauD_Node.Pa s 0 d * log (TauD_Node.Pb s 0 d)
             - gammaln (TauD_Node.Pa s 0 d)).
Proof.
rewrite /TauD_Node.precompute /= /Numpy.sum_all.
rewrite -/(TauD_Node.Pa s) -/(TauD_Node.Pb s).
by apply: eq_bigr => d _; rewrite !mxE.
Qed.

(** [calculateELBO], entry by entry of the row [[0,:]]. *)
Lemma TauD_calculateELBO_E s :
  TauD_Node.calculateELBO log gammaln s
  = (TauD_Node.lbconst (TauD_Node.self s)
     + \sum_d (TauD_Node.Pa s 0 d - 1) * TauD_Node.QlnE s 0 d
     - \sum_d TauD_Node.Pb s 0 d * TauD_Node.QE s 0 d)
    - (\sum_d TauD_Node.Qa s 0 d * log (TauD_Node.Qb s 0 d)
       + \sum_d (TauD_Node.Qa s 0 d - 1) * TauD_Node.QlnE s 0 d
       - \sum_d TauD_Node.Qb s 0 d * TauD_Node.QE s 0 d
       - \sum_d gammaln (TauD_Node.Qa s 0 d)).
Proof.
rewrite /TauD_Node.calculateELBO /Numpy.sum_all.
rewrite -/(TauD_Node.Pa s) -/(TauD_Node.Pb s) -/(TauD_Node.Qa s).
rewrite -/(TauD_Node.Qb s) -/(TauD_Node.QE s) -/(TauD_Node.QlnE s).
by congr (_ + _ - _ - (_ + _ - _ - _)); apply: eq_bigr => d _; rewrite !mxE.
Qed.

(** The prior, the constant and the well-formedness of the state go
    through any number of updates. *)
Lemma TauD_iter_update k s : TauD_Node.wf s ->
  let s' := iter k update s in
  [/\ TauD_Node.wf s', TauD_Node.Pa s' = TauD_Node.Pa s,
      TauD_Node.Pb s' = TauD_Node.Pb s
    & TauD_Node.lbconst (TauD_Node.self s')
      = TauD_Node.lbconst (TauD_Node.self s)].
Proof.
move=> wf_s; elim: k => [|k [wf_k Pa_k Pb_k lb_k]] //=.
split; first exact: TauD_update_wf.
- by rewrite TauD_update_Pa.
- by rewrite TauD_update_Pb.
by rewrite TauD_update_self.
Qed.

End TauDInit.

Section TauNInit.

Variables (F : numFieldType) (N D' K : nat).
Notation D := D'.+1.
Variables (log gammaln digamma : F -> F) (rng : Type).
Implicit Types (s : TauN_Node.state F N D' K rng).
Implicit Types (h : Core.heap F N D) (mb : Core.MarkovBlanket F N D K).
Implicit Types (pa pb qa qb : Core.grid F N D).
Local Notation update :=
  (@TauN_Node.updateParameters F N D' K log digamma rng).
Local Notation init := (TauN_Node.init log gammaln digamma).

Lemma TauN_init_wf h mb pa pb qa qb qE (g : rng) :
  (Core.Y_data (Core.blanket_Y mb) < size h)%N ->
  TauN_Node.wf (init h mb pa pb qa qb qE g).
Proof.
move=> ltY; rewrite /TauN_Node.init.
have := Node_new_mem log digamma h mb pa pb qa qb qE.
have := Node_new_node log digamma h mb pa pb qa qb qE.
case: (Core.Node_new _ _ _ _ _ _ _ _ _) => nd h1 /= -> ->.
rewrite /TauN_Node.wf /= size_cat /= (ltn_addr _ ltY) andbT.
by elim: (size h) => {ltY} // n; rewrite !addSn !ltnS.
Qed.

Lemma TauN_init_prior h mb pa pb qa qb qE (g : rng) :
  let s := init h mb pa pb qa qb qE g in
  [/\ TauN_Node.Pa s = pa, TauN_Node.Pb s = pb
     & TauN_Node.lbconst (TauN_Node.self s)
       = \sum_n (pa n 0 * log (pb n 0) - gammaln (pa n 0))].
Proof.
rewrite /TauN_Node.init.
have := Node_new_mem log digamma h mb pa pb qa qb qE.
have := Node_new_node log digamma h mb pa pb qa qb qE.
case: (Core.Node_new _ _ _ _ _ _ _ _ _) => nd h1 /= -> ->.
rewrite /TauN_Node.Pa /TauN_Node.Pb /=.
rewrite (@deref_cat_off _ _ _ _ _ _ 0) ?addn0 //.
rewrite (@deref_cat_off _ _ _ _ _ _ 1) ?addn1 //.
split=> //; rewrite /Numpy.sum_all; apply: eq_bigr => n _.
by rewrite !mxE.
Qed.

Lemma TauN_init_posterior h mb pa pb qa qb qE (g : rng) :
  let s := init h mb pa pb qa qb qE g in
  [/\ TauN_Node.Qa s = qa, TauN_Node.Qb s = qb,
      Core.markov_blanket (TauN_Node.base (TauN_Node.self s)) = mb,
      Core.dim (TauN_Node.base (TauN_Node.self s)) = (N, D)
    & TauN_Node.random_state s = g].
Proof.
rewrite /TauN_Node.init.
have := Node_new_mem log digamma h mb pa pb qa qb qE.
have := Node_new_node log digamma h mb pa pb qa qb qE.
case: (Core.Node_new _ _ _ _ _ _ _ _ _) => nd h1 /= -> ->.
rewrite /TauN_Node.Qa /TauN_Node.Qb /=.
rewrite (@deref_cat_off _ _ _ _ _ _ 4) ?addn4 //.
by rewrite (@deref_cat_off _ _ _ _ _ _ 5) ?addn4 ?addnS ?addn0.
Qed.

Lemma TauN_init_Y h mb pa pb qa qb qE (g : rng) :
  (Core.Y_data (Core.blanket_Y mb) < size h)%N ->
  TauN_Node.Y (init h mb pa pb qa qb qE g)
  = Core.deref h (Core.Y_data (Core.blanket_Y mb)).
Proof.
move=> ltY; rewrite /TauN_Node.init.
have := Node_new_mem log digamma h mb pa pb qa qb qE.
have := Node_new_node log digamma h mb pa pb qa qb qE.
case: (Core.Node_new _ _ _ _ _ _ _ _ _) => nd h1 /= -> ->.
by rewrite /TauN_Node.Y /= deref_cat_old.
Qed.

Lemma TauN_init_lbconst h mb pa pb qa qb qE (g : rng) :
  let s := init h mb pa pb qa qb qE g in
  TauN_Node.lbconst (TauN_Node.self s)
  = TauN_Node.lbconst
      (TauN_Node.precompute log gammaln (TauN_Node.mem s)
         (TauN_Node.base (TauN_Node.self s))).
Proof.
rewrite /TauN_Node.init.
by case: (Core.Node_new _ _ _ _ _ _ _ _ _) => nd h1.
Qed.

(** The constant that [precompute] would give on the prior of a state. *)
Lemma TauN_precompute_lbconst s :
  TauN_Node.lbconst
    (TauN_Node.precompute log gammaln (TauN_Node.mem s)
       (TauN_Node.base (TauN_Node.self s)))
  = \sum_n (TauN_Node.Pa s n 0 * log (TauN_Node.Pb s n 0)
             - gammaln (TauN_Node.Pa s n 0)).
Proof.
rewrite /TauN_Node.precompute /= /Numpy.sum_all.
rewrite -/(TauN_Node.Pa s) -/(TauN_Node.Pb s).
by apply: eq_bigr => n _; rewrite !mxE.
Qed.

(** [calculateELBO], entry by entry of the column [[:,0]]. *)
Lemma TauN_calculateELBO_E s :
  TauN_Node.calculateELBO log gammaln s
  = (TauN_Node.lbconst (TauN_Node.self s)
     + \sum_n (TauN_Node.Pa s n 0 - 1) * TauN_Node.QlnE s n 0
     - \sum_n TauN_Node.Pb s n 0 * TauN_Node.QE s n 0)
    - (\sum_n TauN_Node.Qa s n 0 * log (TauN_Node.Qb s n 0)
       + \sum_n (TauN_Node.Qa s n 0 - 1) * TauN_Node.QlnE s n 0
       - \sum_n TauN_Node.Qb s n 0 * TauN_Node.QE s n 0
       - \sum_n gammaln (TauN_Node.Qa s n 0)).
Proof.
rewrite /TauN_Node.calculateELBO /Numpy.sum_all.
rewrite -/(TauN_Node.Pa s) -/(TauN_Node.Pb s) -/(TauN_Node.Qa s).
rewrite -/(TauN_Node.Qb s) -/(TauN_Node.QE s) -/(TauN_Node.QlnE s).
rewrite /TauN_Node.col0.
by congr (_ + _ - _ - (_ + _ - _ - _)); apply: eq_bigr => n _; rewrite !mxE.
Qed.

(** The prior, the constant and the well-formedness of the state go
    through any number of updates. *)
Lemma TauN_iter_update k s : TauN_Node.wf s ->
  let s' := iter k update s in
  [/\ TauN_Node.wf s', TauN_Node.Pa s' = TauN_Node.Pa s,
      TauN_Node.Pb s' = TauN_Node.Pb s
    & TauN_Node.lbconst (TauN_Node.self s')
      = TauN_Node.lbconst (TauN_Node.self s)].
Proof.
move=> wf_s; elim: k => [|k [wf_k Pa_k Pb_k lb_k]] //=.
split; first exact: TauN_update_wf.
- by rewrite TauN_update_Pa.
- by rewrite TauN_update_Pb.
by rewrite TauN_update_self.
Qed.

End TauNInit.

(** ** The two updates, mirror images of each other *)

Section MirrorFacts.

Variables (F : numFieldType) (N D' K : nat).
Notation D := D'.+1.
Variables (log digamma : F -> F) (rng : Type).

Lemma ma_sum_axis0_trmx (A : 'M[F]_(N, D)) (mask : 'M[bool]_(N, D)) :
  Numpy.ma_sum_axis0 (Numpy.ma_array A^T mask^T)
  = Numpy.ma_sum_axis1 (Numpy.ma_array A mask).
Proof.
rewrite /Numpy.ma_sum_axis0 /Numpy.ma_sum_axis1 /=.
congr Numpy.ma_array; apply/rowP => n; rewrite !mxE.
  by apply: eq_big => [d|d _]; rewrite !mxE.
by apply: eq_forallb => d; rewrite mxE.
Qed.

Lemma residual_transpose (Y : 'M[F]_(N, D)) (mask : 'M[bool]_(N, D))
    (W WW : 'M[F]_(D, K)) (Z ZZ : 'M[F]_(N, K)) :
  TauD_Node.residual Y^T mask^T Z ZZ W WW
  = TauN_Node.residual Y mask W WW Z ZZ.
Proof.
rewrite /TauD_Node.residual /TauN_Node.residual trmxK.
have dotT (A : 'M[F]_(D, K)) (B : 'M[F]_(N, K)) :
    Numpy.dot A B^T = (Numpy.dot B A^T)^T.
  by apply/matrixP => d n; rewrite [RHS]mxE dot_trmx.
rewrite !dotT !ma_sum_axis0_trmx.
have -> : Numpy.sum_axis0 (Numpy.square Y^T)
          = Numpy.sum_axis1 (Numpy.square Y).
  apply/rowP => n; rewrite sum_axis0E sum_axis1E; apply: eq_bigr => d _.
  by rewrite !squareE [Y^T d n]mxE.
have -> : Numpy.sum_axis0 (Numpy.multiply Y^T (Numpy.dot Z W^T)^T)
          = Numpy.sum_axis1 (Numpy.multiply Y (Numpy.dot Z W^T)).
  apply/rowP => n; rewrite sum_axis0E sum_axis1E; apply: eq_bigr => d _.
  by rewrite !multiplyE [Y^T d n]mxE [_^T d n]mxE.
by [].
Qed.

Lemma posterior_transpose (Y : 'M[F]_(N, D)) (mask : 'M[bool]_(N, D))
    (W WW : 'M[F]_(D, K)) (Z ZZ : 'M[F]_(N, K)) (Pa Pb : 'M[F]_(N, D)) :
  TauD_Node.posterior D Y^T mask^T Z ZZ W WW Pa^T Pb^T
  = (let QQ := TauN_Node.posterior D Y mask W WW Z ZZ Pa Pb in
     (QQ.1^T, Numpy.ma_T QQ.2)).
Proof.
rewrite /TauD_Node.posterior /TauN_Node.posterior /= residual_transpose.
set tmp := TauN_Node.residual _ _ _ _ _ _.
congr (_, _).
  apply/matrixP => d n; rewrite !mxE //.
  congr (_ + (_ - _)%N%:R / _); apply: eq_bigr => i _.
  by rewrite mxE.
rewrite /Numpy.ma_add /Numpy.ma_binary /Numpy.ma_T /=.
by congr Numpy.ma_array; apply/matrixP => d n; rewrite !mxE.
Qed.

Lemma zero_fill_transpose (Y : 'M[F]_(N, D)) (mask : 'M[bool]_(N, D)) :
  Numpy.zero_fill Y^T mask^T = (Numpy.zero_fill Y mask)^T.
Proof. by apply/matrixP => d n; rewrite !mxE. Qed.

Local Opaque TauD_Node.posterior TauN_Node.posterior.

(** Transposing the input and updating the feature node is updating the
    sample node and transposing the result. *)
Lemma update_transpose (s : TauN_Node.state F N D' K rng) :
  TauD_Node.updateParameters log digamma (Mirror.transpose_state s)
  = Mirror.transpose_state (TauN_Node.updateParameters log digamma s).
Proof.
rewrite TauD_update_eq TauN_update_eq.
case: s => h [[dm P Q mb] sD lb sm] g.
rewrite /Mirror.transpose_state /TauD_Node.Y /TauD_Node.mask /TauD_Node.W
  /TauD_Node.WW /TauD_Node.Z /TauD_Node.ZZ /TauN_Node.Y /TauN_Node.mask
  /TauN_Node.W /TauN_Node.WW /TauN_Node.Z /TauN_Node.ZZ /=.
have -> : Core.blanket_Y (Mirror.transpose_blanket mb)
          = Mirror.transpose_Y (Core.blanket_Y mb) by case: mb.
have -> : Core.blanket_factors (Mirror.transpose_blanket mb)
          = ((Core.blanket_factors mb).2, (Core.blanket_factors mb).1).
  by case: mb.
rewrite /= deref_map_trmx zero_fill_transpose -map_rcons !deref_map_trmx.
rewrite posterior_transpose /= size_map map_cat /=.
set QQ := TauN_Node.posterior _ _ _ _ _ _ _ _ _.
set Qb := Numpy.ma_data QQ.2.
have -> : \matrix_(i, j) (QQ.1^T i j / Qb^T i j)
          = (\matrix_(i, j) (QQ.1 i j / Qb i j))^T.
  by apply/matrixP => i j; rewrite !mxE.
have -> : \matrix_(i, j) (digamma (QQ.1^T i j) - log (Qb^T i j))
          = (\matrix_(i, j) (digamma (QQ.1 i j) - log (Qb i j)))^T.
  by apply/matrixP => i j; rewrite !mxE.
by [].
Qed.

End MirrorFacts.

(** ** The update on small inputs *)

(** One sample, one feature, one factor: [Y = 3], first moments 1 and
    second moments 2.  The expected squared residual is
    [9 - 2 * 3 + 2 * 2 = 7]; the update gives [Qa = 1 + 1/2] and
    [Qb = 1 + 7/2] when the entry is present; when it is missing, the
    numbers kept for [Qa] and [Qb] are those of the prior. *)
Example update_one_entry (missing : bool) :
  let s' := TauD_Node.updateParameters Example.fn Example.fn
              (Example.tauD missing) in
  TauD_Node.Qa s' 0 0 = (if missing then 1 else 3%:R / 2%:R)
  /\ TauD_Node.Qb s' 0 0 = (if missing then 1 else 9%:R / 2%:R).
Proof.
have wfD : TauD_Node.wf (Example.tauD missing) by exact: TauD_init_wf.
have [PaE PbE _] := TauD_init_prior Example.fn Example.fn Example.fn
  [:: Example.observed] (Example.blanket missing) Example.prior Example.prior
  Example.prior Example.prior None tt.
have [_ _ mbE _ _] := TauD_init_posterior Example.fn Example.fn Example.fn
  [:: Example.observed] (Example.blanket missing) Example.prior Example.prior
  Example.prior Example.prior None tt.
have YE : TauD_Node.Y (Example.tauD missing) = Example.observed.
  exact: TauD_init_Y.
have maskE : TauD_Node.mask (Example.tauD missing) 0 0 = missing.
  by rewrite /TauD_Node.mask [Core.markov_blanket _]mbE /= mxE.
rewrite /= TauD_update_Qa // TauD_update_Qb // TauD_new_Qa TauD_new_Qb.
rewrite /TauD_Node.tmp TauD_residualE /Reference.present_in_column.
rewrite [\sum_(n | ~~ _) _]big_mkcond /= !big_ord1 maskE.
rewrite [TauD_Node.Pa _]PaE [TauD_Node.Pb _]PbE.
rewrite /Reference.expected_sq_residual /Reference.second_moment.
rewrite !big_ord1 eqxx YE /TauD_Node.W /TauD_Node.WW /TauD_Node.Z.
rewrite /TauD_Node.ZZ [Core.markov_blanket _]mbE /= !mxE.
by case: missing {wfD PaE PbE mbE YE maskE} => /=; split; field.
Qed.

(** The end-to-end scenario: the observation is the reconstruction, so the
    residual is the number 0, [Qb = Pb = 1] and [Qa = Pa + 2/2 = 2]. *)
Example update_scenario n d :
  let s' := TauD_Node.updateParameters Example.fn Example.fn
              Example.scenario in
  [/\ Numpy.ma_get (TauD_Node.tmp Example.scenario) 0 d = Some 0,
      TauD_Node.Qa s' n d = 2%:R & TauD_Node.Qb s' n d = 1].
Proof.
have wfD : TauD_Node.wf Example.scenario by exact: TauD_init_wf.
have [PaE PbE _] := TauD_init_prior Example.fn Example.fn Example.fn
  [:: Example.scenario_Y]
  (Core.Blanket_SW_Z (Core.mkY 0 (const_mx false)) Example.scenario_W
     Example.scenario_Z)
  (const_mx 1) (const_mx 1) (const_mx 1) (const_mx 1) None tt.
have [_ _ mbE _ _] := TauD_init_posterior Example.fn Example.fn Example.fn
  [:: Example.scenario_Y]
  (Core.Blanket_SW_Z (Core.mkY 0 (const_mx false)) Example.scenario_W
     Example.scenario_Z)
  (const_mx 1) (const_mx 1) (const_mx 1) (const_mx 1) None tt.
have YE : TauD_Node.Y Example.scenario = Example.scenario_Y.
  exact: TauD_init_Y.
have maskE i j : TauD_Node.mask Example.scenario i j = false.
  by rewrite /TauD_Node.mask [Core.markov_blanket _]mbE /= mxE.
have tmp0 : Numpy.ma_data (TauD_Node.tmp Example.scenario) 0 d = 0.
  rewrite /TauD_Node.tmp TauD_residualE big1 // => i _.
  rewrite /Reference.expected_sq_residual /Reference.second_moment.
  rewrite !big_ord1 eqxx YE /TauD_Node.W /TauD_Node.WW /TauD_Node.Z.
  rewrite /TauD_Node.ZZ [Core.markov_blanket _]mbE /= !mxE.
  by ring.
have present : [forall i, TauD_Node.mask Example.scenario i d] = false.
  by apply/negbTE/forallPn; exists ord0; rewrite maskE.
rewrite /= TauD_update_Qa // TauD_update_Qb // TauD_new_Qa TauD_new_Qb.
rewrite /Numpy.ma_get TauD_tmp_mask present tmp0.
rewrite [TauD_Node.Pa _]PaE [TauD_Node.Pb _]PbE !mxE mul0r addr0.
split=> //; rewrite /Reference.present_in_column.
have -> : (\sum_i ~~ TauD_Node.mask Example.scenario i d)%N = 2%N.
  rewrite (eq_bigr (fun=> 1%N)) ?sum_nat_const ?card_ord // => i _.
  by rewrite maskE.
by field.
Qed.

(** * The claims *)

(** ** The update of the posterior *)




(** C2.  When no entry of the observation is missing, the sum [tmp[d]] of
    the four terms is a number, not masked, and it is the expected squared
    residual of column [d], summed over all samples; the update commits
    [Pb] plus half of it. *)
Theorem residual_exact_without_missing (F : numFieldType) (N' D K : nat)
    (log digamma : F -> F) (rng : Type) (s : TauD_Node.state F N' D K rng) :
  TauD_Node.wf s -> (forall n d, TauD_Node.mask s n d = false) ->
  forall d,
    let expanded :=
      \sum_n Reference.expected_sq_residual (TauD_Node.Y s)
               (TauD_Node.W s) (TauD_Node.WW s)
               (TauD_Node.Z s) (TauD_Node.ZZ s) n d in
    Numpy.ma_get (TauD_Node.tmp s) 0 d = Some expanded
    /\ forall n,
         TauD_Node.Qb (TauD_Node.updateParameters log digamma s) n d
         = TauD_Node.Pb s n d + expanded / 2%:R.
Proof.
move=> wf_s present d expanded.
have tmpE : Numpy.ma_data (TauD_Node.tmp s) 0 d = expanded.
  rewrite /TauD_Node.tmp TauD_residualE; apply: eq_bigl => n.
  by rewrite present.
have not_masked : [forall n, TauD_Node.mask s n d] = false.
  by apply/negbTE/forallPn; exists ord0; rewrite present.
split=> [|n]; first by rewrite /Numpy.ma_get TauD_tmp_mask not_masked tmpE.
by rewrite (TauD_update_Qb log digamma wf_s) TauD_new_Qb tmpE.
Qed.

Lemma residual_exact_without_missing_witness :
  Numpy.ma_get (TauD_Node.tmp (Example.tauD false)) 0 0
  = Some (\sum_n Reference.expected_sq_residual
                   (TauD_Node.Y (Example.tauD false))
                   (TauD_Node.W (Example.tauD false))
                   (TauD_Node.WW (Example.tauD false))
                   (TauD_Node.Z (Example.tauD false))
                   (TauD_Node.ZZ (Example.tauD false)) n 0).
Proof.
have wfD : TauD_Node.wf (Example.tauD false) by exact: TauD_init_wf.
have present n d : TauD_Node.mask (Example.tauD false) n d = false.
  rewrite /TauD_Node.mask /Example.tauD.
  by have [_ _ -> _ _] := TauD_init_posterior Example.fn Example.fn
    Example.fn [:: Example.observed] (Example.blanket false) Example.prior
    Example.prior Example.prior Example.prior None tt; rewrite /= mxE.
by have [] := @residual_exact_without_missing rat 0 1 1 Example.fn
  Example.fn unit (Example.tauD false) wfD present 0.
Defined.



(** C4.  Whatever the mask, the update adds to the shape half the number
    of entries that are present along the aggregated axis: those of column
    [d] for [TauD_Node], those of row [n] for [TauN_Node]; so twice
    [Qa - Pa] is that number. *)
Theorem shape_counts_present_entries (F : numFieldType) (K : nat)
    (log digamma : F -> F) (rng : Type) :
  (forall N' D (s : TauD_Node.state F N' D K rng), TauD_Node.wf s ->
     forall n d,
       let Qa := TauD_Node.Qa (TauD_Node.updateParameters log digamma s) in
       let count :=
         (Reference.present_in_column (TauD_Node.mask s) d)%:R in
       Qa n d = TauD_Node.Pa s n d + count / 2%:R
       /\ 2%:R * (Qa n d - TauD_Node.Pa s n d) = count)
  /\
  (forall N D' (s : TauN_Node.state F N D' K rng), TauN_Node.wf s ->
     forall n d,
       let Qa := TauN_Node.Qa (TauN_Node.updateParameters log digamma s) in
       let count := (Reference.present_in_row (TauN_Node.mask s) n)%:R in
       Qa n d = TauN_Node.Pa s n d + count / 2%:R
       /\ 2%:R * (Qa n d - TauN_Node.Pa s n d) = count).
Proof.
have two_neq0 : (2%:R : F) != 0 by rewrite pnatr_eq0.
split=> [N' D s wf_s n d Qa count|N D' s wf_s n d Qa count].
- have QaE : Qa n d = TauD_Node.Pa s n d + count / 2%:R.
    by rewrite /Qa TauD_update_Qa // TauD_new_Qa.
  by split=> //; rewrite QaE addrC addKr mulrC divfK.
have QaE : Qa n d = TauN_Node.Pa s n d + count / 2%:R.
  by rewrite /Qa TauN_update_Qa // TauN_new_Qa.
by split=> //; rewrite QaE addrC addKr mulrC divfK.
Qed.

Lemma shape_counts_present_entries_witness :
  TauD_Node.Qa (TauD_Node.updateParameters Example.fn Example.fn
                  (Example.tauD false)) 0 0
  = TauD_Node.Pa (Example.tauD false) 0 0
    + (Reference.present_in_column
         (TauD_Node.mask (Example.tauD false)) 0)%:R / 2%:R.
Proof.
have [HD _] := @shape_counts_present_entries rat 1 Example.fn Example.fn unit.
have wfD : TauD_Node.wf (Example.tauD false) by exact: TauD_init_wf.
by have [] := HD 0 1 (Example.tauD false) wfD 0 0.
Defined.

(** ** The term of the lower bound *)

(** C5.  For a node built by its constructor and updated any number of
    times, [calculateELBO] is [lb_p - lb_q] with the two terms as written
    below, every sum running over the row [[0,:]] for [TauD_Node] and over
    the column [[:,0]] for [TauN_Node], and [lbconst] the sum of
    [pa * log pb - gammaln pa] over that slice of the prior given to the
    constructor. *)
Theorem calculateELBO_formula (F : numFieldType) (K : nat)
    (log gammaln digamma : F -> F) (rng : Type) :
  (forall N' D (h : Core.heap F N'.+1 D) mb pa pb qa qb qE (g : rng) k,
     (Core.Y_data (Core.blanket_Y mb) < size h)%N ->
     let s := iter k (@TauD_Node.updateParameters F N' D K log digamma rng)
                (TauD_Node.init log gammaln digamma h mb pa pb qa qb qE g) in
     let Qa := TauD_Node.Qa s in
     let Qb := TauD_Node.Qb s in
     let QE := TauD_Node.QE s in
     let QlnE := TauD_Node.QlnE s in
     let lbconst := \sum_d (pa 0 d * log (pb 0 d) - gammaln (pa 0 d)) in
     let lb_p := lbconst + \sum_d (pa 0 d - 1) * QlnE 0 d
                 - \sum_d pb 0 d * QE 0 d in
     let lb_q := \sum_d Qa 0 d * log (Qb 0 d)
                 + \sum_d (Qa 0 d - 1) * QlnE 0 d
                 - \sum_d Qb 0 d * QE 0 d
                 - \sum_d gammaln (Qa 0 d) in
     TauD_Node.calculateELBO log gammaln s = lb_p - lb_q)
  /\
  (forall N D' (h : Core.heap F N D'.+1) mb pa pb qa qb qE (g : rng) k,
     (Core.Y_data (Core.blanket_Y mb) < size h)%N ->
     let s := iter k (@TauN_Node.updateParameters F N D' K log digamma rng)
                (TauN_Node.init log gammaln digamma h mb pa pb qa qb qE g) in
     let Qa := TauN_Node.Qa s in
     let Qb := TauN_Node.Qb s in
     let QE := TauN_Node.QE s in
     let QlnE := TauN_Node.QlnE s in
     let lbconst := \sum_n (pa n 0 * log (pb n 0) - gammaln (pa n 0)) in
     let lb_p := lbconst + \sum_n (pa n 0 - 1) * QlnE n 0
                 - \sum_n pb n 0 * QE n 0 in
     let lb_q := \sum_n Qa n 0 * log (Qb n 0)
                 + \sum_n (Qa n 0 - 1) * QlnE n 0
                 - \sum_n Qb n 0 * QE n 0
                 - \sum_n gammaln (Qa n 0) in
     TauN_Node.calculateELBO log gammaln s = lb_p - lb_q).
Proof.
split=> [N' D|N D'] h mb pa pb qa qb qE g k ltY /=.
- have wf0 := TauD_init_wf log gammaln digamma pa pb qa qb qE g ltY.
  rewrite TauD_calculateELBO_E.
  have [_ -> -> ->] := TauD_iter_update log digamma k wf0.
  by have [-> -> ->] :=
    TauD_init_prior log gammaln digamma h mb pa pb qa qb qE g.
have wf0 := TauN_init_wf log gammaln digamma pa pb qa qb qE g ltY.
rewrite TauN_calculateELBO_E.
have [_ -> -> ->] := TauN_iter_update log digamma k wf0.
by have [-> -> ->] :=
  TauN_init_prior log gammaln digamma h mb pa pb qa qb qE g.
Qed.

Lemma calculateELBO_formula_witness :
  let s := iter 1 (@TauD_Node.updateParameters rat 0 1 1 Example.fn
                     Example.fn unit) (Example.tauD false) in
  let pa := Example.prior in
  let pb := Example.prior in
  TauD_Node.calculateELBO Example.fn Example.fn s
  = (\sum_d (pa 0 d * Example.fn (pb 0 d) - Example.fn (pa 0 d))
     + \sum_d (pa 0 d - 1) * TauD_Node.QlnE s 0 d
     - \sum_d pb 0 d * TauD_Node.QE s 0 d)
    - (\sum_d TauD_Node.Qa s 0 d * Example.fn (TauD_Node.Qb s 0 d)
       + \sum_d (TauD_Node.Qa s 0 d - 1) * TauD_Node.QlnE s 0 d
       - \sum_d TauD_Node.Qb s 0 d * TauD_Node.QE s 0 d
       - \sum_d Example.fn (TauD_Node.Qa s 0 d)).
Proof.
have [HD _] :=
  @calculateELBO_formula rat 1 Example.fn Example.fn Example.fn unit.
exact: (HD 0 1 [:: Example.observed] (Example.blanket false) Example.prior
          Example.prior Example.prior Example.prior None tt 1 isT).
Defined.

(** C6.  In a state whose posterior parameters are those of the prior and
    whose [lbconst] is the one [precompute] gives for that prior,
    [calculateELBO] is zero, whatever the cached expectations are. *)
Theorem calculateELBO_zero_at_prior (F : numFieldType) (K : nat)
    (log gammaln : F -> F) (rng : Type) :
  (forall N' D (s : TauD_Node.state F N' D K rng),
     TauD_Node.Qa s = TauD_Node.Pa s -> TauD_Node.Qb s = TauD_Node.Pb s ->
     TauD_Node.lbconst (TauD_Node.self s)
     = TauD_Node.lbconst
         (TauD_Node.precompute log gammaln (TauD_Node.mem s)
            (TauD_Node.base (TauD_Node.self s))) ->
     TauD_Node.calculateELBO log gammaln s = 0)
  /\
  (forall N D' (s : TauN_Node.state F N D' K rng),
     TauN_Node.Qa s = TauN_Node.Pa s -> TauN_Node.Qb s = TauN_Node.Pb s ->
     TauN_Node.lbconst (TauN_Node.self s)
     = TauN_Node.lbconst
         (TauN_Node.precompute log gammaln (TauN_Node.mem s)
            (TauN_Node.base (TauN_Node.self s))) ->
     TauN_Node.calculateELBO log gammaln s = 0).
Proof.
split=> [N' D|N D'] s QaE QbE lbE.
- rewrite TauD_calculateELBO_E lbE TauD_precompute_lbconst QaE QbE.
  by rewrite big_split sumrN /=; ring.
rewrite TauN_calculateELBO_E lbE TauN_precompute_lbconst QaE QbE.
by rewrite big_split sumrN /=; ring.
Qed.

Lemma calculateELBO_zero_at_prior_witness :
  TauD_Node.calculateELBO Example.fn Example.fn (Example.tauD false) = 0.
Proof.
have [HD _] := @calculateELBO_zero_at_prior rat 1 Example.fn Example.fn unit.
have [PaE PbE _] := TauD_init_prior Example.fn Example.fn Example.fn
  [:: Example.observed] (Example.blanket false) Example.prior Example.prior
  Example.prior Example.prior None tt.
have [QaE QbE _ _ _] := TauD_init_posterior Example.fn Example.fn Example.fn
  [:: Example.observed] (Example.blanket false) Example.prior Example.prior
  Example.prior Example.prior None tt.
apply: HD; first by rewrite [LHS]QaE [RHS]PaE.
- by rewrite [LHS]QbE [RHS]PbE.
exact: TauD_init_lbconst.
Defined.

(** ** The shared precision *)

(** C7.  When the rows of [P.a] and of [P.b] are all the same, so are
    the rows of [Q.a] and of [Q.b] after any update of [TauD_Node], the
    first or a later one; likewise for the columns and [TauN_Node]. *)
Theorem broadcast_invariant_preserved (F : numFieldType) (K : nat)
    (log digamma : F -> F) (rng : Type) :
  (forall N' D (s : TauD_Node.state F N' D K rng) k,
     TauD_Node.wf s ->
     (forall n n' d, TauD_Node.Pa s n d = TauD_Node.Pa s n' d) ->
     (forall n n' d, TauD_Node.Pb s n d = TauD_Node.Pb s n' d) ->
     let s' :=
       iter k.+1 (@TauD_Node.updateParameters F N' D K log digamma rng) s in
     forall n n' d,
       TauD_Node.Qa s' n d = TauD_Node.Qa s' n' d
       /\ TauD_Node.Qb s' n d = TauD_Node.Qb s' n' d)
  /\
  (forall N D' (s : TauN_Node.state F N D' K rng) k,
     TauN_Node.wf s ->
     (forall n d d', TauN_Node.Pa s n d = TauN_Node.Pa s n d') ->
     (forall n d d', TauN_Node.Pb s n d = TauN_Node.Pb s n d') ->
     let s' :=
       iter k.+1 (@TauN_Node.updateParameters F N D' K log digamma rng) s in
     forall n d d',
       TauN_Node.Qa s' n d = TauN_Node.Qa s' n d'
       /\ TauN_Node.Qb s' n d = TauN_Node.Qb s' n d').
Proof.
split=> [N' D|N D'] s k wf_s Pa_eq Pb_eq /=.
- have [wf_k PaE PbE _] := TauD_iter_update log digamma k wf_s.
  move=> n n' d; rewrite TauD_update_Qa // TauD_update_Qb //.
  by rewrite !TauD_new_Qa !TauD_new_Qb PaE PbE (Pa_eq n n') (Pb_eq n n').
have [wf_k PaE PbE _] := TauN_iter_update log digamma k wf_s.
move=> n d d'; rewrite TauN_update_Qa // TauN_update_Qb //.
by rewrite !TauN_new_Qa !TauN_new_Qb PaE PbE (Pa_eq n d d') (Pb_eq n d d').
Qed.

Lemma broadcast_invariant_preserved_witness :
  let s' := iter 2 (@TauD_Node.updateParameters rat 1 2 1 Example.fn
                      Example.fn unit) Example.scenario in
  TauD_Node.Qa s' ord0 ord0 = TauD_Node.Qa s' ord_max ord0
  /\ TauD_Node.Qb s' ord0 ord0 = TauD_Node.Qb s' ord_max ord0.
Proof.
have [HD _] :=
  @broadcast_invariant_preserved rat 1 Example.fn Example.fn unit.
have wfD : TauD_Node.wf Example.scenario by exact: TauD_init_wf.
have [PaE PbE _] := TauD_init_prior Example.fn Example.fn Example.fn
  [:: Example.scenario_Y]
  (Core.Blanket_SW_Z (Core.mkY 0 (const_mx false)) Example.scenario_W
     Example.scenario_Z)
  (const_mx 1) (const_mx 1) (const_mx 1) (const_mx 1) None tt.
have Pa_rows n n' d :
    TauD_Node.Pa Example.scenario n d = TauD_Node.Pa Example.scenario n' d.
  by rewrite [TauD_Node.Pa _]PaE !mxE.
have Pb_rows n n' d :
    TauD_Node.Pb Example.scenario n d = TauD_Node.Pb Example.scenario n' d.
  by rewrite [TauD_Node.Pb _]PbE !mxE.
exact: (HD 1 2 Example.scenario 1 wfD Pa_rows Pb_rows ord0 ord_max ord0).
Defined.

(** ** The two nodes side by side *)

(** C8.  [TauN_Node.updateParameters] is [TauD_Node.updateParameters] with
    the axes exchanged.  The transposed input holds the transposed
    observation, mask and prior, and the factor moments in exchanged roles;
    updating it as a [TauD_Node] gives the transpose of the state that the
    [TauN_Node] update gives, so that [Qa] and [Qb] of the one are the
    transposes of [Qa] and [Qb] of the other. *)
Theorem TauN_update_mirrors_TauD (F : numFieldType) (N D' K : nat)
    (log digamma : F -> F) (rng : Type) (s : TauN_Node.state F N D' K rng) :
  let t := Mirror.transpose_state s in
  let sN := TauN_Node.updateParameters log digamma s in
  let sD := TauD_Node.updateParameters log digamma t in
  [/\ TauD_Node.Y t = (TauN_Node.Y s)^T,
      TauD_Node.mask t = (TauN_Node.mask s)^T,
      TauD_Node.Pa t = (TauN_Node.Pa s)^T
    & TauD_Node.Pb t = (TauN_Node.Pb s)^T]
  /\ [/\ TauD_Node.W t = TauN_Node.Z s, TauD_Node.WW t = TauN_Node.ZZ s,
         TauD_Node.Z t = TauN_Node.W s & TauD_Node.ZZ t = TauN_Node.WW s]
  /\ [/\ sD = Mirror.transpose_state sN,
         TauN_Node.Qa sN = (TauD_Node.Qa sD)^T
       & TauN_Node.Qb sN = (TauD_Node.Qb sD)^T].
Proof.
move=> t sN sD; split; last split.
- rewrite /TauD_Node.Y /TauD_Node.mask /TauD_Node.Pa /TauD_Node.Pb /t.
  rewrite /Mirror.transpose_state /= !deref_map_trmx.
  rewrite /TauN_Node.Y /TauN_Node.mask.
  by case: (Core.markov_blanket _).
- rewrite /TauD_Node.W /TauD_Node.WW /TauD_Node.Z /TauD_Node.ZZ /t.
  rewrite /TauN_Node.W /TauN_Node.WW /TauN_Node.Z /TauN_Node.ZZ.
  by rewrite /Mirror.transpose_state /=; case: (Core.markov_blanket _).
have -> : sD = Mirror.transpose_state sN by exact: update_transpose.
rewrite /TauD_Node.Qa /TauD_Node.Qb /Mirror.transpose_state /=.
by rewrite !deref_map_trmx !trmxK.
Qed.

(** ** What the update writes *)

(** C9.  An update leaves everything but the posterior as it was: the
    prior, the cached [N] or [D], [lbconst], the dimensions, the sample,
    the Markov blanket with the data and the mask of the observation, and
    every array that was in the store.  The zero-filled copy of [Y] is a
    new array, at the first free location of the store. *)
Theorem update_writes_only_posterior (F : numFieldType) (K : nat)
    (log digamma : F -> F) (rng : Type) :
  (forall N' D (s : TauD_Node.state F N' D K rng), TauD_Node.wf s ->
     let s' := TauD_Node.updateParameters log digamma s in
     let nd := TauD_Node.base (TauD_Node.self s) in
     let nd' := TauD_Node.base (TauD_Node.self s') in
     [/\ Core.P nd' = Core.P nd, TauD_Node.Pa s' = TauD_Node.Pa s,
         TauD_Node.Pb s' = TauD_Node.Pb s,
         TauD_Node.self_N (TauD_Node.self s')
         = TauD_Node.self_N (TauD_Node.self s)
       & TauD_Node.lbconst (TauD_Node.self s')
         = TauD_Node.lbconst (TauD_Node.self s)]
     /\ [/\ Core.markov_blanket nd' = Core.markov_blanket nd,
            TauD_Node.Y s' = TauD_Node.Y s,
            TauD_Node.mask s' = TauD_Node.mask s,
            Core.dim nd' = Core.dim nd
          & TauD_Node.samp (TauD_Node.self s')
            = TauD_Node.samp (TauD_Node.self s)]
     /\ (forall l, (l < size (TauD_Node.mem s))%N ->
           Core.deref (TauD_Node.mem s') l = Core.deref (TauD_Node.mem s) l)
     /\ Core.deref (TauD_Node.mem s') (size (TauD_Node.mem s))
        = Numpy.zero_fill (TauD_Node.Y s) (TauD_Node.mask s))
  /\
  (forall N D' (s : TauN_Node.state F N D' K rng), TauN_Node.wf s ->
     let s' := TauN_Node.updateParameters log digamma s in
     let nd := TauN_Node.base (TauN_Node.self s) in
     let nd' := TauN_Node.base (TauN_Node.self s') in
     [/\ Core.P nd' = Core.P nd, TauN_Node.Pa s' = TauN_Node.Pa s,
         TauN_Node.Pb s' = TauN_Node.Pb s,
         TauN_Node.self_D (TauN_Node.self s')
         = TauN_Node.self_D (TauN_Node.self s)
       & TauN_Node.lbconst (TauN_Node.self s')
         = TauN_Node.lbconst (TauN_Node.self s)]
     /\ [/\ Core.markov_blanket nd' = Core.markov_blanket nd,
            TauN_Node.Y s' = TauN_Node.Y s,
            TauN_Node.mask s' = TauN_Node.mask s,
            Core.dim nd' = Core.dim nd
          & TauN_Node.samp (TauN_Node.self s')
            = TauN_Node.samp (TauN_Node.self s)]
     /\ (forall l, (l < size (TauN_Node.mem s))%N ->
           Core.deref (TauN_Node.mem s') l = Core.deref (TauN_Node.mem s) l)
     /\ Core.deref (TauN_Node.mem s') (size (TauN_Node.mem s))
        = Numpy.zero_fill (TauN_Node.Y s) (TauN_Node.mask s)).
Proof.
split=> [N' D|N D'] s wf_s /=.
- split; last split; last split.
  + by split;
      rewrite ?(TauD_update_Pa _ _ wf_s) ?(TauD_update_Pb _ _ wf_s)
              ?TauD_update_self.
  + by split;
      rewrite ?(TauD_update_Y _ _ wf_s) ?/TauD_Node.mask ?TauD_update_self.
  + by move=> l lt_l; rewrite TauD_update_frame.
  rewrite TauD_update_mem //.
  by rewrite (@deref_cat_off _ _ _ _ _ _ 0) ?addn0.
split; last split; last split.
+ by split;
    rewrite ?(TauN_update_Pa _ _ wf_s) ?(TauN_update_Pb _ _ wf_s)
            ?TauN_update_self.
+ by split;
    rewrite ?(TauN_update_Y _ _ wf_s) ?/TauN_Node.mask ?TauN_update_self.
+ by move=> l lt_l; rewrite TauN_update_frame.
rewrite TauN_update_mem //.
by rewrite (@deref_cat_off _ _ _ _ _ _ 0) ?addn0.
Qed.

Lemma update_writes_only_posterior_witness :
  let s := Example.tauD false in
  let s' := TauD_Node.updateParameters Example.fn Example.fn s in
  TauD_Node.Pa s' = TauD_Node.Pa s /\ TauD_Node.Y s' = TauD_Node.Y s.
Proof.
have [HD _] := @update_writes_only_posterior rat 1 Example.fn Example.fn unit.
have wfD : TauD_Node.wf (Example.tauD false) by exact: TauD_init_wf.
have [[_ PaE _ _ _] [[_ YE _ _ _] _]] := HD 0 1 (Example.tauD false) wfD.
by split.
Defined.

(** ** Sampling *)

(** C10.  Whatever [distrib] is, [sample] draws from the Gamma
    distribution built on the prior: the row [P.a[0,:]], [P.b[0,:]] and
    [dim = (D, 1)] for [TauD_Node], the column [P.a[:,0]], [P.b[:,0]] and
    [dim = (N, 1)] for [TauN_Node].  The draw is stored in [self.samp] and
    returned, and nothing else of the node or of the store changes.  A
    second state with the same slice of the prior and the same generator
    gives the same draw, whatever its posterior and its [distrib]. *)
Theorem sample_draws_from_prior (F : numFieldType) (K : nat) (rng : Type)
    (Gamma_sample : forall n, Core.Gamma1 F n -> rng -> 'rV[F]_n * rng) :
  (forall N' D (s : TauD_Node.state F N' D K rng) (distrib : String.string),
     Core.dim (TauD_Node.base (TauD_Node.self s)) = (N'.+1, D) ->
     let P := Core.mkGamma1 (D, 1%N) (row 0 (TauD_Node.Pa s))
                            (row 0 (TauD_Node.Pb s)) in
     let r := Gamma_sample D P (TauD_Node.random_state s) in
     let out := TauD_Node.sample Gamma_sample distrib s in
     [/\ out.2 = r.1, TauD_Node.samp (TauD_Node.self out.1) = Some r.1,
         TauD_Node.random_state out.1 = r.2,
         TauD_Node.mem out.1 = TauD_Node.mem s
       & TauD_Node.base (TauD_Node.self out.1)
         = TauD_Node.base (TauD_Node.self s)]
     /\ forall (s2 : TauD_Node.state F N' D K rng) distrib2,
          Core.dim (TauD_Node.base (TauD_Node.self s2)) = (N'.+1, D) ->
          row 0 (TauD_Node.Pa s2) = row 0 (TauD_Node.Pa s) ->
          row 0 (TauD_Node.Pb s2) = row 0 (TauD_Node.Pb s) ->
          TauD_Node.random_state s2 = TauD_Node.random_state s ->
          (TauD_Node.sample Gamma_sample distrib2 s2).2 = out.2)
  /\
  (forall N D' (s : TauN_Node.state F N D' K rng) (distrib : String.string),
     Core.dim (TauN_Node.base (TauN_Node.self s)) = (N, D'.+1) ->
     let P := Core.mkGamma1 (N, 1%N) (TauN_Node.col0 (TauN_Node.Pa s))
                            (TauN_Node.col0 (TauN_Node.Pb s)) in
     let r := Gamma_sample N P (TauN_Node.random_state s) in
     let out := TauN_Node.sample Gamma_sample distrib s in
     [/\ out.2 = r.1, TauN_Node.samp (TauN_Node.self out.1) = Some r.1,
         TauN_Node.random_state out.1 = r.2,
         TauN_Node.mem out.1 = TauN_Node.mem s
       & TauN_Node.base (TauN_Node.self out.1)
         = TauN_Node.base (TauN_Node.self s)]
     /\ forall (s2 : TauN_Node.state F N D' K rng) distrib2,
          Core.dim (TauN_Node.base (TauN_Node.self s2)) = (N, D'.+1) ->
          TauN_Node.col0 (TauN_Node.Pa s2) = TauN_Node.col0 (TauN_Node.Pa s) ->
          TauN_Node.col0 (TauN_Node.Pb s2) = TauN_Node.col0 (TauN_Node.Pb s) ->
          TauN_Node.random_state s2 = TauN_Node.random_state s ->
          (TauN_Node.sample Gamma_sample distrib2 s2).2 = out.2).
Proof.
split=> [N' D|N D'] s distrib dimE /=.
- have sampleE (s0 : TauD_Node.state F N' D K rng) d0 :
      Core.dim (TauD_Node.base (TauD_Node.self s0)) = (N'.+1, D) ->
      TauD_Node.sample Gamma_sample d0 s0
      = let r := Gamma_sample D
                   (Core.mkGamma1 (D, 1%N) (row 0 (TauD_Node.Pa s0))
                                  (row 0 (TauD_Node.Pb s0)))
                   (TauD_Node.random_state s0) in
        (TauD_Node.mkState (TauD_Node.mem s0)
           {| TauD_Node.base := TauD_Node.base (TauD_Node.self s0);
              TauD_Node.self_N := TauD_Node.self_N (TauD_Node.self s0);
              TauD_Node.lbconst := TauD_Node.lbconst (TauD_Node.self s0);
              TauD_Node.samp := Some r.1 |} r.2, r.1).
    move=> dim0.
    rewrite /TauD_Node.sample /TauD_Node.sample_distribution dim0 /=.
    by rewrite -/(TauD_Node.Pa s0) -/(TauD_Node.Pb s0); case: (Gamma_sample _ _ _).
  rewrite sampleE //=; split=> // s2 distrib2 dim2 PaE PbE rngE.
  by rewrite sampleE //= PaE PbE rngE.
have sampleE (s0 : TauN_Node.state F N D' K rng) d0 :
    Core.dim (TauN_Node.base (TauN_Node.self s0)) = (N, D'.+1) ->
    TauN_Node.sample Gamma_sample d0 s0
    = let r := Gamma_sample N
                 (Core.mkGamma1 (N, 1%N) (TauN_Node.col0 (TauN_Node.Pa s0))
                                (TauN_Node.col0 (TauN_Node.Pb s0)))
                 (TauN_Node.random_state s0) in
      (TauN_Node.mkState (TauN_Node.mem s0)
         {| TauN_Node.base := TauN_Node.base (TauN_Node.self s0);
            TauN_Node.self_D := TauN_Node.self_D (TauN_Node.self s0);
            TauN_Node.lbconst := TauN_Node.lbconst (TauN_Node.self s0);
            TauN_Node.samp := Some r.1 |} r.2, r.1).
  move=> dim0.
  rewrite /TauN_Node.sample /TauN_Node.sample_distribution dim0 /=.
  by rewrite -/(TauN_Node.Pa s0) -/(TauN_Node.Pb s0); case: (Gamma_sample _ _ _).
rewrite sampleE //=; split=> // s2 distrib2 dim2 PaE PbE rngE.
by rewrite sampleE //= PaE PbE rngE.
Qed.

Lemma sample_draws_from_prior_witness :
  (TauD_Node.sample Example.draw Example.distrib_Q (Example.tauD false)).2
  = row 0 (TauD_Node.Pa (Example.tauD false)).
Proof.
have [HD _] := @sample_draws_from_prior rat 1 unit Example.draw.
have [_ _ _ dimE _] := TauD_init_posterior Example.fn Example.fn Example.fn
  [:: Example.observed] (Example.blanket false) Example.prior Example.prior
  Example.prior Example.prior None tt.
by have [[-> _ _ _ _] _] := HD 0 1 (Example.tauD false) Example.distrib_Q dimE.
Defined.

(** * Further properties of the two nodes *)

(** ** The residual *)

Section ResidualFacts.

Variables (F : numFieldType) (N D K : nat).

(** The expected squared residual of one entry is the squared error of the
    mean reconstruction plus, factor by factor, what the second moments add
    to the squares of the first. *)
Lemma expected_sq_residual_split (Y : 'M[F]_(N, D)) (W WW : 'M[F]_(D, K))
    (Z ZZ : 'M[F]_(N, K)) n d :
  Reference.expected_sq_residual Y W WW Z ZZ n d
  = (Y n d - \sum_k Z n k * W d k) ^+ 2
    + \sum_k (ZZ n k * WW d k - (Z n k * W d k) ^+ 2).
Proof.
rewrite /Reference.expected_sq_residual /Reference.second_moment cross_sum.
rewrite sumrB.
have -> : \sum_k (Z n k * W d k) ^+ 2
          = \sum_k Z n k * W d k * (Z n k * W d k).
  by apply: eq_bigr => k _; rewrite expr2.
by rewrite expr2; ring.
Qed.

End ResidualFacts.

(** X1.  The update of [TauN_Node] is exact on the entries that are
    present, as that of [TauD_Node] is: whatever the mask, the data of
    [tmp[n]] are the expected squared residual of row [n] summed over the
    features that are present, and reading [tmp[n]] gives that number
    unless the row is masked throughout, when it gives [masked]; the two
    halves of [term4] are sums over those features only, and the update
    commits [Pb] plus half of that residual. *)
Theorem TauN_residual_exact_on_present_entries (F : numFieldType)
    (N D' K : nat) (log digamma : F -> F) (rng : Type)
    (s : TauN_Node.state F N D' K rng) :
  TauN_Node.wf s ->
  forall n,
    let mask := TauN_Node.mask s in
    let W := TauN_Node.W s in
    let Z := TauN_Node.Z s in
    let expanded :=
      \sum_(d | ~~ mask n d)
         Reference.expected_sq_residual (TauN_Node.Y s)
           W (TauN_Node.WW s) Z (TauN_Node.ZZ s) n d in
    let ZW := Numpy.ma_array (Numpy.dot Z W^T) mask in
    [/\ Numpy.ma_data (TauN_Node.tmp s) 0 n = expanded,
        Numpy.ma_get (TauN_Node.tmp s) 0 n
        = (if [forall d, mask n d] then None else Some expanded),
        Numpy.ma_data (Utils.dotd ZW (Numpy.ma_T ZW)) 0 n
        = \sum_(d | ~~ mask n d) (\sum_k Z n k * W d k) ^+ 2,
        Numpy.ma_data
          (Numpy.ma_sum_axis1
             (Numpy.ma_array (Numpy.dot (Numpy.square Z) (Numpy.square W)^T)
                             mask)) 0 n
        = \sum_(d | ~~ mask n d) \sum_k (Z n k) ^+ 2 * (W d k) ^+ 2
      & forall d,
          TauN_Node.Qb (TauN_Node.updateParameters log digamma s) n d
          = TauN_Node.Pb s n d + expanded / 2%:R].
Proof.
move=> wf_s n mask W Z expanded ZW.
have tmpE : Numpy.ma_data (TauN_Node.tmp s) 0 n = expanded.
  by rewrite /TauN_Node.tmp TauN_residualE.
split=> //.
- exact: TauN_tmp_get.
- rewrite TauN_dotd_masked; apply: eq_bigr => d _.
  by rewrite dotE expr2.
- rewrite TauN_squares_masked; apply: eq_bigr => d _.
  by apply: eq_bigr => k _; rewrite !expr2.
by move=> d; rewrite (TauN_update_Qb log digamma wf_s) TauN_new_Qb tmpE.
Qed.

Lemma TauN_residual_exact_on_present_entries_witness :
  Numpy.ma_data (TauN_Node.tmp (Example.tauN false)) 0 0
  = \sum_(d | ~~ TauN_Node.mask (Example.tauN false) 0 d)
       Reference.expected_sq_residual
         (TauN_Node.Y (Example.tauN false))
         (TauN_Node.W (Example.tauN false))
         (TauN_Node.WW (Example.tauN false))
         (TauN_Node.Z (Example.tauN false))
         (TauN_Node.ZZ (Example.tauN false)) 0 d.
Proof.
have wfN : TauN_Node.wf (Example.tauN false) by exact: TauN_init_wf.
by have [] := @TauN_residual_exact_on_present_entries rat 1 0 1 Example.fn
  Example.fn unit (Example.tauN false) wfN 0.
Defined.

(** X2.  The data of the sum of the four terms are a sum of squared
    errors plus a variance term: over the entries that are present, the
    square of [Y - sum_k Z W] on the first moments, plus for each factor
    the excess
    of [ZZ * WW] over [(Z * W)^2].  So with second moments that are the
    squares of the first, [tmp] is the plain sum of squared errors of the
    reconstruction. *)
Theorem residual_is_squared_error_plus_variance (F : numFieldType)
    (K : nat) (rng : Type) :
  (forall N' D (s : TauD_Node.state F N' D K rng) d,
     let Y := TauD_Node.Y s in
     let W := TauD_Node.W s in
     let Z := TauD_Node.Z s in
     Numpy.ma_data (TauD_Node.tmp s) 0 d
     = \sum_(n | ~~ TauD_Node.mask s n d)
          ((Y n d - \sum_k Z n k * W d k) ^+ 2
           + \sum_k (TauD_Node.ZZ s n k * TauD_Node.WW s d k
                     - (Z n k * W d k) ^+ 2)))
  /\
  (forall N D' (s : TauN_Node.state F N D' K rng) n,
     let Y := TauN_Node.Y s in
     let W := TauN_Node.W s in
     let Z := TauN_Node.Z s in
     Numpy.ma_data (TauN_Node.tmp s) 0 n
     = \sum_(d | ~~ TauN_Node.mask s n d)
          ((Y n d - \sum_k Z n k * W d k) ^+ 2
           + \sum_k (TauN_Node.ZZ s n k * TauN_Node.WW s d k
                     - (Z n k * W d k) ^+ 2))).
Proof.
split=> [N' D s d|N D' s n] /=.
- rewrite /TauD_Node.tmp TauD_residualE; apply: eq_bigr => n _.
  exact: expected_sq_residual_split.
rewrite /TauN_Node.tmp TauN_residualE; apply: eq_bigr => d _.
exact: expected_sq_residual_split.
Qed.

(** ** Bounds on the new parameters *)

Section BoundFacts.

Variable F : realFieldType.

Lemma present_in_column_le N D (mask : 'M[bool]_(N, D)) d :
  (Reference.present_in_column mask d <= N)%N.
Proof.
rewrite /Reference.present_in_column -[X in (_ <= X)%N]card_ord -sum1_card.
by apply: leq_sum => n _; case: (mask n d).
Qed.

Lemma present_in_row_le N D (mask : 'M[bool]_(N, D)) n :
  (Reference.present_in_row mask n <= D)%N.
Proof.
rewrite /Reference.present_in_row -[X in (_ <= X)%N]card_ord -sum1_card.
by apply: leq_sum => d _; case: (mask n d).
Qed.

Lemma half_count_bounds (c m : nat) :
  (c <= m)%N -> 0 <= c%:R / 2%:R :> F /\ c%:R / 2%:R <= m%:R / 2%:R :> F.
Proof.
move=> le_cm; split; first by rewrite divr_ge0 ?ler0n.
by rewrite ler_pM2r ?invr_gt0 ?ltr0n // ler_nat.
Qed.

(** With second moments at least the squares of the first moments, the
    expected squared residual of an entry is not negative. *)
Lemma expected_sq_residual_ge0 N D K (Y : 'M[F]_(N, D)) (W WW : 'M[F]_(D, K))
    (Z ZZ : 'M[F]_(N, K)) n d :
  (forall k, Z n k ^+ 2 <= ZZ n k) -> (forall k, W d k ^+ 2 <= WW d k) ->
  0 <= Reference.expected_sq_residual Y W WW Z ZZ n d.
Proof.
move=> leZ leW; rewrite expected_sq_residual_split.
apply: addr_ge0; first exact: sqr_ge0.
apply: sumr_ge0 => k _; rewrite subr_ge0 exprMn.
by apply: ler_pM; rewrite ?sqr_ge0.
Qed.

End BoundFacts.

(** ** What repeated updates keep *)

Section TauDIterFacts.

Variables (F : numFieldType) (N' D K : nat).
Variables (log digamma : F -> F) (rng : Type).
Implicit Types (s : TauD_Node.state F N' D K rng).
Local Notation update :=
  (@TauD_Node.updateParameters F N' D K log digamma rng).

Lemma TauD_update_blanket s :
  Core.markov_blanket (TauD_Node.base (TauD_Node.self (update s)))
  = Core.markov_blanket (TauD_Node.base (TauD_Node.self s)).
Proof. by rewrite TauD_update_self. Qed.

(** An update changes nothing of what the next update reads. *)
Lemma TauD_update_inputs s : TauD_Node.wf s ->
  TauD_Node.tmp (update s) = TauD_Node.tmp s
  /\ TauD_Node.new_posterior (update s) = TauD_Node.new_posterior s.
Proof.
move=> wf_s; rewrite /TauD_Node.new_posterior /TauD_Node.tmp.
rewrite (TauD_update_Y log digamma wf_s) (TauD_update_Pa log digamma wf_s).
rewrite (TauD_update_Pb log digamma wf_s) {wf_s}.
rewrite /TauD_Node.mask /TauD_Node.W /TauD_Node.WW /TauD_Node.Z.
by rewrite /TauD_Node.ZZ TauD_update_blanket.
Qed.

Lemma TauD_iter_inputs k s : TauD_Node.wf s ->
  [/\ TauD_Node.wf (iter k update s),
      TauD_Node.tmp (iter k update s) = TauD_Node.tmp s
    & TauD_Node.new_posterior (iter k update s) = TauD_Node.new_posterior s].
Proof.
move=> wf_s; elim: k => [|k [wf_k tmp_k new_k]]; first by [].
rewrite iterS; have [-> ->] := TauD_update_inputs wf_k.
by split; [exact: TauD_update_wf | exact: tmp_k | exact: new_k].
Qed.

End TauDIterFacts.

Section TauNIterFacts.

Variables (F : numFieldType) (N D' K : nat).
Variables (log digamma : F -> F) (rng : Type).
Implicit Types (s : TauN_Node.state F N D' K rng).
Local Notation update :=
  (@TauN_Node.updateParameters F N D' K log digamma rng).

Lemma TauN_update_blanket s :
  Core.markov_blanket (TauN_Node.base (TauN_Node.self (update s)))
  = Core.markov_blanket (TauN_Node.base (TauN_Node.self s)).
Proof. by rewrite TauN_update_self. Qed.

Lemma TauN_update_inputs s : TauN_Node.wf s ->
  TauN_Node.tmp (update s) = TauN_Node.tmp s
  /\ TauN_Node.new_posterior (update s) = TauN_Node.new_posterior s.
Proof.
move=> wf_s; rewrite /TauN_Node.new_posterior /TauN_Node.tmp.
rewrite (TauN_update_Y log digamma wf_s) (TauN_update_Pa log digamma wf_s).
rewrite (TauN_update_Pb log digamma wf_s) {wf_s}.
rewrite /TauN_Node.mask /TauN_Node.W /TauN_Node.WW /TauN_Node.Z.
by rewrite /TauN_Node.ZZ TauN_update_blanket.
Qed.

Lemma TauN_iter_inputs k s : TauN_Node.wf s ->
  [/\ TauN_Node.wf (iter k update s),
      TauN_Node.tmp (iter k update s) = TauN_Node.tmp s
    & TauN_Node.new_posterior (iter k update s) = TauN_Node.new_posterior s].
Proof.
move=> wf_s; elim: k => [|k [wf_k tmp_k new_k]]; first by [].
rewrite iterS; have [-> ->] := TauN_update_inputs wf_k.
by split; [exact: TauN_update_wf | exact: tmp_k | exact: new_k].
Qed.

End TauNIterFacts.

(** X3.  Over the reals, the new shape lies between the prior shape and
    the prior shape plus half the length of the aggregated axis: half the
    number of samples for [TauD_Node], of features for [TauN_Node]. *)
Theorem shape_between_prior_and_half_length (F : realFieldType) (K : nat)
    (log digamma : F -> F) (rng : Type) :
  (forall N' D (s : TauD_Node.state F N' D K rng), TauD_Node.wf s ->
     forall n d,
       let Qa := TauD_Node.Qa (TauD_Node.updateParameters log digamma s) in
       TauD_Node.Pa s n d <= Qa n d
                          <= TauD_Node.Pa s n d + N'.+1%:R / 2%:R)
  /\
  (forall N D' (s : TauN_Node.state F N D' K rng), TauN_Node.wf s ->
     forall n d,
       let Qa := TauN_Node.Qa (TauN_Node.updateParameters log digamma s) in
       TauN_Node.Pa s n d <= Qa n d
                          <= TauN_Node.Pa s n d + D'.+1%:R / 2%:R).
Proof.
split=> [N' D|N D'] s wf_s n d /=.
- rewrite TauD_update_Qa // TauD_new_Qa lerDl lerD2l.
  have [-> ->] //:= half_count_bounds F
    (present_in_column_le (TauD_Node.mask s) d).
rewrite TauN_update_Qa // TauN_new_Qa lerDl lerD2l.
by have [-> ->] := half_count_bounds F
  (present_in_row_le (TauN_Node.mask s) n).
Qed.

Lemma shape_between_prior_and_half_length_witness :
  let Qa := TauD_Node.Qa (TauD_Node.updateParameters Example.fn Example.fn
                            Example.scenario) in
  TauD_Node.Pa Example.scenario ord0 ord0 <= Qa ord0 ord0
    <= TauD_Node.Pa Example.scenario ord0 ord0 + 2%:R / 2%:R.
Proof.
have [HD _] :=
  @shape_between_prior_and_half_length rat 1 Example.fn Example.fn unit.
have wfD : TauD_Node.wf Example.scenario by exact: TauD_init_wf.
exact: (HD 1 2 Example.scenario wfD ord0 ord0).
Defined.

(** X4.  Over the reals, when the second moments of the factors are at
    least the squares of their first moments, the residual [tmp] is not
    negative and the new rate is not below the prior rate. *)
Theorem rate_not_below_prior (F : realFieldType) (K : nat)
    (log digamma : F -> F) (rng : Type) :
  (forall N' D (s : TauD_Node.state F N' D K rng), TauD_Node.wf s ->
     (forall n k, TauD_Node.Z s n k ^+ 2 <= TauD_Node.ZZ s n k) ->
     (forall d k, TauD_Node.W s d k ^+ 2 <= TauD_Node.WW s d k) ->
     forall n d,
       0 <= Numpy.ma_data (TauD_Node.tmp s) 0 d
       /\ TauD_Node.Pb s n d
          <= TauD_Node.Qb (TauD_Node.updateParameters log digamma s) n d)
  /\
  (forall N D' (s : TauN_Node.state F N D' K rng), TauN_Node.wf s ->
     (forall n k, TauN_Node.Z s n k ^+ 2 <= TauN_Node.ZZ s n k) ->
     (forall d k, TauN_Node.W s d k ^+ 2 <= TauN_Node.WW s d k) ->
     forall n d,
       0 <= Numpy.ma_data (TauN_Node.tmp s) 0 n
       /\ TauN_Node.Pb s n d
          <= TauN_Node.Qb (TauN_Node.updateParameters log digamma s) n d).
Proof.
split=> [N' D|N D'] s wf_s leZ leW n d.
- have tmp_ge0 : 0 <= Numpy.ma_data (TauD_Node.tmp s) 0 d.
    rewrite /TauD_Node.tmp TauD_residualE; apply: sumr_ge0 => i _.
    exact: expected_sq_residual_ge0.
  split=> //; rewrite TauD_update_Qb // TauD_new_Qb lerDl.
  by rewrite divr_ge0 ?ler0n.
have tmp_ge0 : 0 <= Numpy.ma_data (TauN_Node.tmp s) 0 n.
  rewrite /TauN_Node.tmp TauN_residualE; apply: sumr_ge0 => j _.
  exact: expected_sq_residual_ge0.
split=> //; rewrite TauN_update_Qb // TauN_new_Qb lerDl.
by rewrite divr_ge0 ?ler0n.
Qed.

Section ScenarioFacts.

(** What the scenario of the examples holds. *)
Lemma scenario_blanketE :
  Core.markov_blanket (TauD_Node.base (TauD_Node.self Example.scenario))
  = Example2.scenario_blanket.
Proof.
by have [_ _ -> _ _] := TauD_init_posterior Example.fn Example.fn Example.fn
  [:: Example.scenario_Y] Example2.scenario_blanket
  (const_mx 1) (const_mx 1) (const_mx 1) (const_mx 1) None tt.
Qed.

Lemma scenario_moments :
  (forall n k, TauD_Node.Z Example.scenario n k ^+ 2
               <= TauD_Node.ZZ Example.scenario n k)
  /\ (forall d k, TauD_Node.W Example.scenario d k ^+ 2
                  <= TauD_Node.WW Example.scenario d k).
Proof.
rewrite /TauD_Node.Z /TauD_Node.ZZ /TauD_Node.W /TauD_Node.WW.
rewrite scenario_blanketE /=.
by split=> i k; rewrite !mxE ?expr1n // expr2.
Qed.

Lemma scenario_prior n d :
  TauD_Node.Pa Example.scenario n d = 1
  /\ TauD_Node.Pb Example.scenario n d = 1.
Proof.
have [PaE PbE _] := TauD_init_prior Example.fn Example.fn Example.fn
  [:: Example.scenario_Y] Example2.scenario_blanket
  (const_mx 1) (const_mx 1) (const_mx 1) (const_mx 1) None tt.
by rewrite [TauD_Node.Pa _]PaE [TauD_Node.Pb _]PbE !mxE.
Qed.

End ScenarioFacts.

Lemma rate_not_below_prior_witness :
  TauD_Node.Pb Example.scenario ord0 ord0
  <= TauD_Node.Qb (TauD_Node.updateParameters Example.fn Example.fn
                     Example.scenario) ord0 ord0.
Proof.
have [HD _] := @rate_not_below_prior rat 1 Example.fn Example.fn unit.
have wfD : TauD_Node.wf Example.scenario by exact: TauD_init_wf.
have [leZ leW] := scenario_moments.
by have [] := HD 1 2 Example.scenario wfD leZ leW ord0 ord0.
Defined.

(** X5.  Over the reals, with second moments at least the squares of the
    first moments, a prior whose shape and rate are positive everywhere
    gives a posterior whose shape and rate are positive everywhere, after
    the first update and after every later one. *)
Theorem positive_parameters_preserved (F : realFieldType) (K : nat)
    (log digamma : F -> F) (rng : Type) :
  (forall N' D (s : TauD_Node.state F N' D K rng), TauD_Node.wf s ->
     (forall n k, TauD_Node.Z s n k ^+ 2 <= TauD_Node.ZZ s n k) ->
     (forall d k, TauD_Node.W s d k ^+ 2 <= TauD_Node.WW s d k) ->
     (forall n d, 0 < TauD_Node.Pa s n d) ->
     (forall n d, 0 < TauD_Node.Pb s n d) ->
     forall k n d,
       let s' :=
         iter k.+1 (@TauD_Node.updateParameters F N' D K log digamma rng) s in
       0 < TauD_Node.Qa s' n d /\ 0 < TauD_Node.Qb s' n d)
  /\
  (forall N D' (s : TauN_Node.state F N D' K rng), TauN_Node.wf s ->
     (forall n k, TauN_Node.Z s n k ^+ 2 <= TauN_Node.ZZ s n k) ->
     (forall d k, TauN_Node.W s d k ^+ 2 <= TauN_Node.WW s d k) ->
     (forall n d, 0 < TauN_Node.Pa s n d) ->
     (forall n d, 0 < TauN_Node.Pb s n d) ->
     forall k n d,
       let s' :=
         iter k.+1 (@TauN_Node.updateParameters F N D' K log digamma rng) s in
       0 < TauN_Node.Qa s' n d /\ 0 < TauN_Node.Qb s' n d).
Proof.
split=> [N' D|N D'] s wf_s leZ leW Pa_gt0 Pb_gt0 k n d /=.
- have [wf_k _ newE] := TauD_iter_inputs log digamma k wf_s.
  rewrite ?iterS (TauD_update_Qa log digamma wf_k)
    (TauD_update_Qb log digamma wf_k).
  rewrite newE TauD_new_Qa TauD_new_Qb {wf_s wf_k newE}.
  split; apply: ltr_wpDr; rewrite ?Pa_gt0 ?Pb_gt0 ?divr_ge0 ?ler0n //.
  rewrite /TauD_Node.tmp TauD_residualE; apply: sumr_ge0 => i _.
  exact: expected_sq_residual_ge0.
have [wf_k _ newE] := TauN_iter_inputs log digamma k wf_s.
rewrite ?iterS (TauN_update_Qa log digamma wf_k)
  (TauN_update_Qb log digamma wf_k).
rewrite newE TauN_new_Qa TauN_new_Qb {wf_s wf_k newE}.
split; apply: ltr_wpDr; rewrite ?Pa_gt0 ?Pb_gt0 ?divr_ge0 ?ler0n //.
rewrite /TauN_Node.tmp TauN_residualE; apply: sumr_ge0 => j _.
exact: expected_sq_residual_ge0.
Qed.

Lemma positive_parameters_preserved_witness :
  let s' := iter 3 (@TauD_Node.updateParameters rat 1 2 1 Example.fn
                      Example.fn unit) Example.scenario in
  0 < TauD_Node.Qa s' ord0 ord0 /\ 0 < TauD_Node.Qb s' ord0 ord0.
Proof.
have [HD _] :=
  @positive_parameters_preserved rat 1 Example.fn Example.fn unit.
have wfD : TauD_Node.wf Example.scenario by exact: TauD_init_wf.
have [leZ leW] := scenario_moments.
have Pa_gt0 n d : 0 < TauD_Node.Pa Example.scenario n d.
  by have [-> _] := scenario_prior n d.
have Pb_gt0 n d : 0 < TauD_Node.Pb Example.scenario n d.
  by have [_ ->] := scenario_prior n d.
exact: (HD 1 2 Example.scenario wfD leZ leW Pa_gt0 Pb_gt0 2 ord0 ord0).
Defined.

(** X6.  Repeating the update without a change of the observation, of the
    factors or of the prior changes nothing: the parameters after any
    number of updates are those after the first. *)
Theorem update_idempotent (F : numFieldType) (K : nat)
    (log digamma : F -> F) (rng : Type) :
  (forall N' D (s : TauD_Node.state F N' D K rng) k, TauD_Node.wf s ->
     let update := @TauD_Node.updateParameters F N' D K log digamma rng in
     TauD_Node.Qa (iter k.+1 update s) = TauD_Node.Qa (update s)
     /\ TauD_Node.Qb (iter k.+1 update s) = TauD_Node.Qb (update s))
  /\
  (forall N D' (s : TauN_Node.state F N D' K rng) k, TauN_Node.wf s ->
     let update := @TauN_Node.updateParameters F N D' K log digamma rng in
     TauN_Node.Qa (iter k.+1 update s) = TauN_Node.Qa (update s)
     /\ TauN_Node.Qb (iter k.+1 update s) = TauN_Node.Qb (update s)).
Proof.
split=> [N' D|N D'] s k wf_s /=.
- have [wf_k _ newE] := TauD_iter_inputs log digamma k wf_s.
  rewrite ?iterS (TauD_update_Qa log digamma wf_k)
    (TauD_update_Qb log digamma wf_k).
  by rewrite (TauD_update_Qa log digamma wf_s)
    (TauD_update_Qb log digamma wf_s) newE.
have [wf_k _ newE] := TauN_iter_inputs log digamma k wf_s.
rewrite ?iterS (TauN_update_Qa log digamma wf_k)
  (TauN_update_Qb log digamma wf_k).
by rewrite (TauN_update_Qa log digamma wf_s)
  (TauN_update_Qb log digamma wf_s) newE.
Qed.

Lemma update_idempotent_witness :
  let update := @TauD_Node.updateParameters rat 1 2 1 Example.fn
                  Example.fn unit in
  TauD_Node.Qb (iter 2 update Example.scenario)
  = TauD_Node.Qb (update Example.scenario).
Proof.
have [HD _] := @update_idempotent rat 1 Example.fn Example.fn unit.
have wfD : TauD_Node.wf Example.scenario by exact: TauD_init_wf.
by have [] := HD 1 2 Example.scenario 1 wfD.
Defined.

(** ** What the update reads *)

(** X7.  Column [d] of the new parameters of [TauD_Node] is a function of
    column [d] of the mask and of the prior, of row [d] of the moments of
    [W], and, at the samples that are present in column [d], of the
    observation and of the moments of [Z].  Neither the number stored under
    a masked entry, nor the other columns, nor the posterior in place
    count.  Likewise for [TauN_Node], with rows for columns and the roles
    of [W] and [Z] exchanged. *)
Theorem update_reads_present_entries_only (F : numFieldType) (K : nat)
    (log digamma : F -> F) (rng : Type) :
  (forall N' D (s1 s2 : TauD_Node.state F N' D K rng) (d : 'I_D),
     TauD_Node.wf s1 -> TauD_Node.wf s2 ->
     (forall n, TauD_Node.mask s1 n d = TauD_Node.mask s2 n d) ->
     (forall n, TauD_Node.Pa s1 n d = TauD_Node.Pa s2 n d) ->
     (forall n, TauD_Node.Pb s1 n d = TauD_Node.Pb s2 n d) ->
     (forall k, TauD_Node.W s1 d k = TauD_Node.W s2 d k) ->
     (forall k, TauD_Node.WW s1 d k = TauD_Node.WW s2 d k) ->
     (forall n, ~~ TauD_Node.mask s1 n d ->
        [/\ TauD_Node.Y s1 n d = TauD_Node.Y s2 n d,
            forall k, TauD_Node.Z s1 n k = TauD_Node.Z s2 n k
          & forall k, TauD_Node.ZZ s1 n k = TauD_Node.ZZ s2 n k]) ->
     forall n,
       TauD_Node.Qa (TauD_Node.updateParameters log digamma s1) n d
       = TauD_Node.Qa (TauD_Node.updateParameters log digamma s2) n d
       /\ TauD_Node.Qb (TauD_Node.updateParameters log digamma s1) n d
          = TauD_Node.Qb (TauD_Node.updateParameters log digamma s2) n d)
  /\
  (forall N D' (s1 s2 : TauN_Node.state F N D' K rng) (n : 'I_N),
     TauN_Node.wf s1 -> TauN_Node.wf s2 ->
     (forall d, TauN_Node.mask s1 n d = TauN_Node.mask s2 n d) ->
     (forall d, TauN_Node.Pa s1 n d = TauN_Node.Pa s2 n d) ->
     (forall d, TauN_Node.Pb s1 n d = TauN_Node.Pb s2 n d) ->
     (forall k, TauN_Node.Z s1 n k = TauN_Node.Z s2 n k) ->
     (forall k, TauN_Node.ZZ s1 n k = TauN_Node.ZZ s2 n k) ->
     (forall d, ~~ TauN_Node.mask s1 n d ->
        [/\ TauN_Node.Y s1 n d = TauN_Node.Y s2 n d,
            forall k, TauN_Node.W s1 d k = TauN_Node.W s2 d k
          & forall k, TauN_Node.WW s1 d k = TauN_Node.WW s2 d k]) ->
     forall d,
       TauN_Node.Qa (TauN_Node.updateParameters log digamma s1) n d
       = TauN_Node.Qa (TauN_Node.updateParameters log digamma s2) n d
       /\ TauN_Node.Qb (TauN_Node.updateParameters log digamma s1) n d
          = TauN_Node.Qb (TauN_Node.updateParameters log digamma s2) n d).
Proof.
split=> [N' D s1 s2 d|N D' s1 s2 n] wf1 wf2 maskE PaE PbE.
- move=> WE WWE presentE n.
  rewrite (TauD_update_Qa log digamma wf1) (TauD_update_Qa log digamma wf2).
  rewrite (TauD_update_Qb log digamma wf1) (TauD_update_Qb log digamma wf2).
  rewrite !TauD_new_Qa !TauD_new_Qb {wf1 wf2}.
  rewrite PaE PbE; split.
    congr (_ + _%:R / _); rewrite /Reference.present_in_column.
    by apply: eq_bigr => i _; rewrite maskE.
  congr (_ + _ / _); rewrite /TauD_Node.tmp !TauD_residualE.
  apply: eq_big => [i|i present_i]; first by rewrite maskE.
  have [YE ZE ZZE] := presentE i present_i.
  rewrite /Reference.expected_sq_residual /Reference.second_moment YE.
  congr (_ - _ * (_ * _) + _).
    by apply: eq_bigr => k _; rewrite ZE WE.
  apply: eq_bigr => k _; apply: eq_bigr => k' _.
  by rewrite !ZE !WE ZZE WWE.
move=> ZE ZZE presentE d.
rewrite (TauN_update_Qa log digamma wf1) (TauN_update_Qa log digamma wf2).
rewrite (TauN_update_Qb log digamma wf1) (TauN_update_Qb log digamma wf2).
rewrite !TauN_new_Qa !TauN_new_Qb {wf1 wf2}.
rewrite PaE PbE; split.
  congr (_ + _%:R / _); rewrite /Reference.present_in_row.
  by apply: eq_bigr => j _; rewrite maskE.
congr (_ + _ / _); rewrite /TauN_Node.tmp !TauN_residualE.
apply: eq_big => [j|j present_j]; first by rewrite maskE.
have [YE WE WWE] := presentE j present_j.
rewrite /Reference.expected_sq_residual /Reference.second_moment YE.
congr (_ - _ * (_ * _) + _).
  by apply: eq_bigr => k _; rewrite ZE WE.
apply: eq_bigr => k _; apply: eq_bigr => k' _.
by rewrite !ZE !WE ZZE WWE.
Qed.

Lemma update_reads_present_entries_only_witness :
  TauD_Node.Qb (TauD_Node.updateParameters Example.fn Example.fn
                  (Example.tauD true)) ord0 ord0
  = TauD_Node.Qb (TauD_Node.updateParameters Example.fn Example.fn
                    Example2.placeholder) ord0 ord0.
Proof.
have [HD _] :=
  @update_reads_present_entries_only rat 1 Example.fn Example.fn unit.
have wf1 : TauD_Node.wf (Example.tauD true) by exact: TauD_init_wf.
have wf2 : TauD_Node.wf Example2.placeholder by exact: TauD_init_wf.
have [Pa1 Pb1 _] := TauD_init_prior Example.fn Example.fn Example.fn
  [:: Example.observed] (Example.blanket true) Example.prior Example.prior
  Example.prior Example.prior None tt.
have [Pa2 Pb2 _] := TauD_init_prior Example.fn Example.fn Example.fn
  [:: const_mx 5%:Q] (Example.blanket true) Example.prior Example.prior
  (const_mx 7%:Q) (const_mx 4%:Q) (Some (const_mx 2%:Q)) tt.
have [_ _ mb1 _ _] := TauD_init_posterior Example.fn Example.fn Example.fn
  [:: Example.observed] (Example.blanket true) Example.prior Example.prior
  Example.prior Example.prior None tt.
have [_ _ mb2 _ _] := TauD_init_posterior Example.fn Example.fn Example.fn
  [:: const_mx 5%:Q] (Example.blanket true) Example.prior Example.prior
  (const_mx 7%:Q) (const_mx 4%:Q) (Some (const_mx 2%:Q)) tt.
have mbE : Core.markov_blanket
             (TauD_Node.base (TauD_Node.self (Example.tauD true)))
           = Core.markov_blanket
               (TauD_Node.base (TauD_Node.self Example2.placeholder)).
  by rewrite [LHS]mb1 [RHS]mb2.
have masked n : TauD_Node.mask (Example.tauD true) n ord0.
  by rewrite /TauD_Node.mask [Core.markov_blanket _]mb1 /= mxE.
have maskE n : TauD_Node.mask (Example.tauD true) n ord0
               = TauD_Node.mask Example2.placeholder n ord0.
  by rewrite /TauD_Node.mask mbE.
have PaE n : TauD_Node.Pa (Example.tauD true) n ord0
             = TauD_Node.Pa Example2.placeholder n ord0.
  by rewrite [in LHS]Pa1 [in RHS]Pa2.
have PbE n : TauD_Node.Pb (Example.tauD true) n ord0
             = TauD_Node.Pb Example2.placeholder n ord0.
  by rewrite [in LHS]Pb1 [in RHS]Pb2.
have WE k : TauD_Node.W (Example.tauD true) ord0 k
            = TauD_Node.W Example2.placeholder ord0 k.
  by rewrite /TauD_Node.W mbE.
have WWE k : TauD_Node.WW (Example.tauD true) ord0 k
             = TauD_Node.WW Example2.placeholder ord0 k.
  by rewrite /TauD_Node.WW mbE.
have presentE n : ~~ TauD_Node.mask (Example.tauD true) n ord0 ->
    [/\ TauD_Node.Y (Example.tauD true) n ord0
        = TauD_Node.Y Example2.placeholder n ord0,
        forall k, TauD_Node.Z (Example.tauD true) n k
                  = TauD_Node.Z Example2.placeholder n k
      & forall k, TauD_Node.ZZ (Example.tauD true) n k
                  = TauD_Node.ZZ Example2.placeholder n k].
  by rewrite masked.
by have [] := HD 0 1 (Example.tauD true) Example2.placeholder ord0 wf1 wf2
                maskE PaE PbE WE WWE presentE ord0.
Defined.

(** ** Sampling and inference *)

Section SampleFacts.

Variables (F : numFieldType) (K : nat) (log gammaln digamma : F -> F).
Variable rng : Type.
Variable Gamma_sample : forall n, Core.Gamma1 F n -> rng -> 'rV[F]_n * rng.

Lemma TauD_sample_update N' D (s : TauD_Node.state F N' D K rng) distrib :
  TauD_Node.wf s ->
  let sample := TauD_Node.sample Gamma_sample distrib in
  let update := @TauD_Node.updateParameters F N' D K log digamma rng in
  [/\ update (sample s).1 = (sample (update s)).1,
      (sample (update s)).2 = (sample s).2
    & TauD_Node.calculateELBO log gammaln (sample s).1
      = TauD_Node.calculateELBO log gammaln s].
Proof.
move=> wf_s sample update.
have distE : TauD_Node.sample_distribution (update s)
             = TauD_Node.sample_distribution s.
  rewrite /TauD_Node.sample_distribution /update TauD_update_self /=.
  have /and5P[ltPa ltPb _ _ _] := wf_s.
  by rewrite !(TauD_update_frame log digamma wf_s).
rewrite /sample /TauD_Node.sample distE /update TauD_update_random.
case: (Gamma_sample _ _) => x g /=; split=> //.
by rewrite !TauD_update_eq.
Qed.

Lemma TauN_sample_update N D' (s : TauN_Node.state F N D' K rng) distrib :
  TauN_Node.wf s ->
  let sample := TauN_Node.sample Gamma_sample distrib in
  let update := @TauN_Node.updateParameters F N D' K log digamma rng in
  [/\ update (sample s).1 = (sample (update s)).1,
      (sample (update s)).2 = (sample s).2
    & TauN_Node.calculateELBO log gammaln (sample s).1
      = TauN_Node.calculateELBO log gammaln s].
Proof.
move=> wf_s sample update.
have distE : TauN_Node.sample_distribution (update s)
             = TauN_Node.sample_distribution s.
  rewrite /TauN_Node.sample_distribution /update TauN_update_self /=.
  have /and5P[ltPa ltPb _ _ _] := wf_s.
  by rewrite !(TauN_update_frame log digamma wf_s).
rewrite /sample /TauN_Node.sample distE /update TauN_update_random.
case: (Gamma_sample _ _) => x g /=; split=> //.
by rewrite !TauN_update_eq.
Qed.

End SampleFacts.

(** X9.  Sampling does not disturb inference.  [sample] leaves the bound
    of [calculateELBO] as it was, and it commutes with [updateParameters]:
    drawing then updating gives the state that updating then drawing
    gives, with the same draw, since the update touches neither the prior
    nor the generator and the draw touches neither the store nor the
    posterior. *)
Theorem sample_commutes_with_update (F : numFieldType) (K : nat)
    (log gammaln digamma : F -> F) (rng : Type)
    (Gamma_sample : forall n, Core.Gamma1 F n -> rng -> 'rV[F]_n * rng) :
  (forall N' D (s : TauD_Node.state F N' D K rng) distrib,
     TauD_Node.wf s ->
     let sample := TauD_Node.sample Gamma_sample distrib in
     let update := @TauD_Node.updateParameters F N' D K log digamma rng in
     [/\ update (sample s).1 = (sample (update s)).1,
         (sample (update s)).2 = (sample s).2
       & TauD_Node.calculateELBO log gammaln (sample s).1
         = TauD_Node.calculateELBO log gammaln s])
  /\
  (forall N D' (s : TauN_Node.state F N D' K rng) distrib,
     TauN_Node.wf s ->
     let sample := TauN_Node.sample Gamma_sample distrib in
     let update := @TauN_Node.updateParameters F N D' K log digamma rng in
     [/\ update (sample s).1 = (sample (update s)).1,
         (sample (update s)).2 = (sample s).2
       & TauN_Node.calculateELBO log gammaln (sample s).1
         = TauN_Node.calculateELBO log gammaln s]).
Proof.
split=> [N' D|N D'] s distrib wf_s.
  exact: TauD_sample_update.
exact: TauN_sample_update.
Qed.

Lemma sample_commutes_with_update_witness :
  let sample := TauD_Node.sample Example.draw Example.distrib_Q in
  let update := @TauD_Node.updateParameters rat 1 2 1 Example.fn
                  Example.fn unit in
  update (sample Example.scenario).1 = (sample (update Example.scenario)).1.
Proof.
have [HD _] := @sample_commutes_with_update rat 1 Example.fn Example.fn
                 Example.fn unit Example.draw.
have wfD : TauD_Node.wf Example.scenario by exact: TauD_init_wf.
by have [] := HD 1 2 Example.scenario Example.distrib_Q wfD.
Defined.

(** ** The other methods, mirror images of each other *)

Section MirrorMethods.

Variables (F : numFieldType) (N D' K : nat).
Notation D := D'.+1.
Variables (log gammaln digamma : F -> F) (rng : Type).
Variable Gamma_sample : forall n, Core.Gamma1 F n -> rng -> 'rV[F]_n * rng.

Lemma row0_trmx (A : 'M[F]_(N, D)) : row 0 A^T = TauN_Node.col0 A.
Proof. by rewrite /TauN_Node.col0 tr_col. Qed.

Lemma expectation_E_trmx (a b : 'M[F]_(N, D)) :
  \matrix_(i, j) (a^T i j / b^T i j) = (\matrix_(i, j) (a i j / b i j))^T.
Proof. by apply/matrixP => i j; rewrite !mxE. Qed.

Lemma expectation_lnE_trmx (a b : 'M[F]_(N, D)) :
  \matrix_(i, j) (digamma (a^T i j) - log (b^T i j))
  = (\matrix_(i, j) (digamma (a i j) - log (b i j)))^T.
Proof. by apply/matrixP => i j; rewrite !mxE. Qed.

Lemma Node_new_transpose h (mb : Core.MarkovBlanket F N D K) pa pb qa qb qE :
  let ndh := Core.Node_new log digamma h mb pa pb qa qb qE in
  Core.Node_new log digamma [seq x^T | x <- h] (Mirror.transpose_blanket mb)
    pa^T pb^T qa^T qb^T (omap trmx qE)
  = (Core.mkNode ((Core.dim ndh.1).2, (Core.dim ndh.1).1) (Core.P ndh.1)
       (Core.Q ndh.1) (Mirror.transpose_blanket (Core.markov_blanket ndh.1)),
     [seq x^T | x <- ndh.2]).
Proof.
move=> ndh; rewrite [LHS]surjective_pairing /ndh {ndh} !Node_new_mem.
rewrite !Node_new_node /=.
rewrite size_map map_cat /= !expectation_E_trmx !expectation_lnE_trmx.
by case: qE.
Qed.

Lemma init_transpose h (mb : Core.MarkovBlanket F N D K) pa pb qa qb qE
    (g : rng) :
  TauD_Node.init log gammaln digamma [seq x^T | x <- h]
    (Mirror.transpose_blanket mb) pa^T pb^T qa^T qb^T (omap trmx qE) g
  = Mirror.transpose_state
      (TauN_Node.init log gammaln digamma h mb pa pb qa qb qE g).
Proof.
rewrite /TauD_Node.init /TauN_Node.init Node_new_transpose.
case: (Core.Node_new _ _ _ _ _ _ _ _ _) => nd h1 /=.
rewrite /Mirror.transpose_state /TauD_Node.precompute /TauN_Node.precompute /=.
by rewrite !deref_map_trmx !row0_trmx.
Qed.

Lemma calculateELBO_transpose (s : TauN_Node.state F N D' K rng) :
  TauD_Node.calculateELBO log gammaln (Mirror.transpose_state s)
  = TauN_Node.calculateELBO log gammaln s.
Proof.
rewrite /TauD_Node.calculateELBO /TauN_Node.calculateELBO.
by rewrite /Mirror.transpose_state /= !deref_map_trmx !row0_trmx.
Qed.

Lemma sample_transpose (s : TauN_Node.state F N D' K rng) distrib :
  TauD_Node.sample Gamma_sample distrib (Mirror.transpose_state s)
  = let out := TauN_Node.sample Gamma_sample distrib s in
    (Mirror.transpose_state out.1, out.2).
Proof.
rewrite /TauD_Node.sample /TauN_Node.sample.
rewrite /TauD_Node.sample_distribution /TauN_Node.sample_distribution.
rewrite /Mirror.transpose_state /= !deref_map_trmx !row0_trmx.
by case: (Gamma_sample _ _).
Qed.

End MirrorMethods.

(** X10.  The other methods of [TauN_Node] are those of [TauD_Node] with
    the axes exchanged, as the update is: building the node, computing the
    bound and sampling on the transposed input give the transposed node,
    the same bound and the same draw. *)
Theorem TauN_methods_mirror_TauD (F : numFieldType) (N D' K : nat)
    (log gammaln digamma : F -> F) (rng : Type)
    (Gamma_sample : forall n, Core.Gamma1 F n -> rng -> 'rV[F]_n * rng) :
  [/\ forall h (mb : Core.MarkovBlanket F N D'.+1 K) pa pb qa qb qE (g : rng),
        TauD_Node.init log gammaln digamma [seq x^T | x <- h]
          (Mirror.transpose_blanket mb) pa^T pb^T qa^T qb^T (omap trmx qE) g
        = Mirror.transpose_state
            (TauN_Node.init log gammaln digamma h mb pa pb qa qb qE g),
      forall s : TauN_Node.state F N D' K rng,
        TauD_Node.calculateELBO log gammaln (Mirror.transpose_state s)
        = TauN_Node.calculateELBO log gammaln s
    & forall (s : TauN_Node.state F N D' K rng) distrib,
        let out := TauN_Node.sample Gamma_sample distrib s in
        TauD_Node.sample Gamma_sample distrib (Mirror.transpose_state s)
        = (Mirror.transpose_state out.1, out.2)].
Proof.
split; first exact: init_transpose.
  exact: calculateELBO_transpose.
exact: sample_transpose.
Qed.

(** ** Symmetries of the update *)

Section SymmetryFacts.

Variables (F : numFieldType) (K : nat).

Lemma dot_col_perm m n (sigma : perm.perm_of 'I_K)
    (A : 'M[F]_(m, K)) (B : 'M[F]_(n, K)) :
  Numpy.dot (col_perm sigma A) (col_perm sigma B)^T = Numpy.dot A B^T.
Proof.
apply/matrixP => i j; rewrite !mxE.
rewrite [RHS](reindex_inj (@perm.perm_inj _ sigma)) /=.
by apply: eq_bigr => k _; rewrite !mxE.
Qed.

Lemma square_col_perm m (sigma : perm.perm_of 'I_K) (A : 'M[F]_(m, K)) :
  Numpy.square (col_perm sigma A) = col_perm sigma (Numpy.square A).
Proof. by apply/matrixP => i j; rewrite !mxE. Qed.

(** A slice is masked throughout whatever the order it is read in. *)
Lemma forall_reindex (I : finType) (h : I -> I) (P : pred I) :
  injective h -> [forall i, P (h i)] = [forall i, P i].
Proof.
move=> inj_h; have [g _ gK] := injF_bij inj_h.
apply/forallP/forallP => masked i; last exact: masked.
by rewrite -(gK i).
Qed.

(** Two masked arrays with the same data and the same mask are the
    same. *)
Lemma ma_eq m n (A B : Numpy.MaskedArray F m n) :
  Numpy.ma_data A = Numpy.ma_data B -> Numpy.ma_mask A = Numpy.ma_mask B ->
  A = B.
Proof. by case: A B => [dA mA] [dB mB] /= -> ->. Qed.

End SymmetryFacts.

(** X11.  The update does not depend on the order of the latent factors:
    relabelling the [K] factors, the same way in the moments of [W] and of
    [Z], gives the same [tmp] and the same new parameters, whatever the
    observation and the mask are. *)
Theorem update_invariant_under_factor_relabelling (F : numFieldType)
    (K : nat) (sigma : perm.perm_of 'I_K) :
  (forall N' D shape0 (Y : 'M[F]_(N'.+1, D)) mask W WW Z ZZ Pa Pb,
     TauD_Node.posterior shape0 Y mask (col_perm sigma W) (col_perm sigma WW)
       (col_perm sigma Z) (col_perm sigma ZZ) Pa Pb
     = TauD_Node.posterior shape0 Y mask W WW Z ZZ Pa Pb)
  /\
  (forall N D' shape1 (Y : 'M[F]_(N, D'.+1)) mask W WW Z ZZ Pa Pb,
     TauN_Node.posterior shape1 Y mask (col_perm sigma W) (col_perm sigma WW)
       (col_perm sigma Z) (col_perm sigma ZZ) Pa Pb
     = TauN_Node.posterior shape1 Y mask W WW Z ZZ Pa Pb).
Proof.
split=> [N' D|N D'] shape Y mask W WW Z ZZ Pa Pb.
  rewrite /TauD_Node.posterior /TauD_Node.residual.
  by rewrite !square_col_perm !dot_col_perm.
rewrite /TauN_Node.posterior /TauN_Node.residual.
by rewrite !square_col_perm !dot_col_perm.
Qed.

(** X12.  The update does not depend on the order along the axis it sums
    over.  For [TauD_Node], reordering the samples, the same way in the
    observation, in the mask and in the moments of [Z], gives the same
    new parameters; for [TauN_Node], reordering the features, the same
    way in the observation, in the mask and in the moments of [W]. *)
Theorem update_invariant_under_reordering (F : numFieldType) (K : nat) :
  (forall N' D (sigma : perm.perm_of 'I_N'.+1) (Y : 'M[F]_(N'.+1, D))
          mask W WW (Z ZZ : 'M[F]_(N'.+1, K)) Pa Pb,
     TauD_Node.posterior N'.+1
       (Numpy.zero_fill (row_perm sigma Y) (row_perm sigma mask))
       (row_perm sigma mask) W WW (row_perm sigma Z) (row_perm sigma ZZ)
       Pa Pb
     = TauD_Node.posterior N'.+1 (Numpy.zero_fill Y mask) mask
         W WW Z ZZ Pa Pb)
  /\
  (forall N D' (sigma : perm.perm_of 'I_D'.+1) (Y : 'M[F]_(N, D'.+1))
          mask (W WW : 'M[F]_(D'.+1, K)) Z ZZ Pa Pb,
     TauN_Node.posterior D'.+1
       (Numpy.zero_fill (col_perm sigma Y) (col_perm sigma mask))
       (col_perm sigma mask) (row_perm sigma W) (row_perm sigma WW) Z ZZ
       Pa Pb
     = TauN_Node.posterior D'.+1 (Numpy.zero_fill Y mask) mask
         W WW Z ZZ Pa Pb).
Proof.
split=> [N' D|N D'] sigma Y mask W WW Z ZZ Pa Pb.
- set L := TauD_Node.posterior _ (Numpy.zero_fill (row_perm _ _) _)
             _ _ _ _ _ _ _.
  set R := TauD_Node.posterior _ _ _ _ _ _ _ _ _.
  suff [E1 E2 E3] : [/\ L.1 = R.1, Numpy.ma_data L.2 = Numpy.ma_data R.2
                      & Numpy.ma_mask L.2 = Numpy.ma_mask R.2].
    rewrite [L]surjective_pairing [R]surjective_pairing E1.
    by congr (_, _); exact: ma_eq.
  split; apply/matrixP => n d; rewrite /L /R {L R}.
  + rewrite !TauD_posterior_Qa.
    congr (_ + _%:R / _); rewrite /Reference.present_in_column.
    rewrite [RHS](reindex_inj (@perm.perm_inj _ sigma)) /=.
    by apply: eq_bigr => i _; rewrite mxE.
  + rewrite !TauD_posterior_Qb; congr (_ + _ / _).
    rewrite [RHS](reindex_inj (@perm.perm_inj _ sigma)) /=.
    apply: eq_big => [i|i _]; first by rewrite mxE.
    rewrite /Reference.expected_sq_residual /Reference.second_moment !mxE.
    congr (_ - _ * (_ * _) + _).
      by apply: eq_bigr => k _; rewrite !mxE.
    by apply: eq_bigr => k _; apply: eq_bigr => k' _; rewrite !mxE.
  rewrite !TauD_posterior_Qb_mask.
  rewrite -[RHS](forall_reindex _ (@perm.perm_inj _ sigma)).
  by apply: eq_forallb => i; rewrite mxE.
set L := TauN_Node.posterior _ (Numpy.zero_fill (col_perm _ _) _)
           _ _ _ _ _ _ _.
set R := TauN_Node.posterior _ _ _ _ _ _ _ _ _.
suff [E1 E2 E3] : [/\ L.1 = R.1, Numpy.ma_data L.2 = Numpy.ma_data R.2
                    & Numpy.ma_mask L.2 = Numpy.ma_mask R.2].
  rewrite [L]surjective_pairing [R]surjective_pairing E1.
  by congr (_, _); exact: ma_eq.
split; apply/matrixP => n d; rewrite /L /R {L R}.
- rewrite !TauN_posterior_Qa.
  congr (_ + _%:R / _); rewrite /Reference.present_in_row.
  rewrite [RHS](reindex_inj (@perm.perm_inj _ sigma)) /=.
  by apply: eq_bigr => j _; rewrite mxE.
- rewrite !TauN_posterior_Qb; congr (_ + _ / _).
  rewrite [RHS](reindex_inj (@perm.perm_inj _ sigma)) /=.
  apply: eq_big => [j|j _]; first by rewrite mxE.
  rewrite /Reference.expected_sq_residual /Reference.second_moment !mxE.
  congr (_ - _ * (_ * _) + _).
    by apply: eq_bigr => k _; rewrite !mxE.
  by apply: eq_bigr => k _; apply: eq_bigr => k' _; rewrite !mxE.
rewrite !TauN_posterior_Qb_mask.
rewrite -[RHS](forall_reindex _ (@perm.perm_inj _ sigma)).
by apply: eq_forallb => j; rewrite mxE.
Qed.

(** ** Units and the model without factors *)

Section ScaleFacts.

Variables (F : numFieldType) (K : nat).

Lemma expected_sq_residual_scale N D (c : F) (Y : 'M[F]_(N, D))
    (W WW : 'M[F]_(D, K)) (Z ZZ : 'M[F]_(N, K)) n d :
  Reference.expected_sq_residual (c *: Y) (c *: W) (c ^+ 2 *: WW) Z ZZ n d
  = c ^+ 2 * Reference.expected_sq_residual Y W WW Z ZZ n d.
Proof.
rewrite /Reference.expected_sq_residual !mxE.
have -> : \sum_k Z n k * (c *: W) d k = c * \sum_k Z n k * W d k.
  by rewrite mulr_sumr; apply: eq_bigr => k _; rewrite mxE mulrCA.
have -> : \sum_k \sum_k'
             Reference.second_moment (c *: W) (c ^+ 2 *: WW) Z ZZ n d k k'
          = c ^+ 2 * \sum_k \sum_k' Reference.second_moment W WW Z ZZ n d k k'.
  rewrite mulr_sumr; apply: eq_bigr => k _.
  rewrite mulr_sumr; apply: eq_bigr => k' _.
  rewrite /Reference.second_moment !mxE.
  by case: (k == k'); rewrite expr2; ring.
move: (\sum_k _ * _) (\sum_k \sum_k' _) => a b.
by rewrite expr2; ring.
Qed.

Lemma expected_sq_residual_no_factor N D (Y : 'M[F]_(N, D))
    (W WW : 'M[F]_(D, 0)) (Z ZZ : 'M[F]_(N, 0)) n d :
  Reference.expected_sq_residual Y W WW Z ZZ n d = Y n d ^+ 2.
Proof.
by rewrite /Reference.expected_sq_residual !big_ord0 mulr0 mulr0 subr0 addr0.
Qed.

End ScaleFacts.

(** X13.  The residual is homogeneous of degree two in the unit of the
    observation.  Multiplying the observation and the first moment of the
    loadings by [c], and so the second moment by [c^2], multiplies the
    data of every entry of [tmp] by [c^2] and leaves its mask as it is,
    whatever the mask of the observation is. *)
Theorem residual_scales_with_the_unit (F : numFieldType) (K : nat) (c : F) :
  (forall N' D (Y : 'M[F]_(N'.+1, D)) mask (W WW : 'M[F]_(D, K))
          (Z ZZ : 'M[F]_(N'.+1, K)),
     let scaled :=
       TauD_Node.residual (Numpy.zero_fill (c *: Y) mask) mask
         (c *: W) (c ^+ 2 *: WW) Z ZZ in
     let tmp := TauD_Node.residual (Numpy.zero_fill Y mask) mask W WW Z ZZ in
     Numpy.ma_data scaled = c ^+ 2 *: Numpy.ma_data tmp
     /\ Numpy.ma_mask scaled = Numpy.ma_mask tmp)
  /\
  (forall N D' (Y : 'M[F]_(N, D'.+1)) mask (W WW : 'M[F]_(D'.+1, K))
          (Z ZZ : 'M[F]_(N, K)),
     let scaled :=
       TauN_Node.residual (Numpy.zero_fill (c *: Y) mask) mask
         (c *: W) (c ^+ 2 *: WW) Z ZZ in
     let tmp := TauN_Node.residual (Numpy.zero_fill Y mask) mask W WW Z ZZ in
     Numpy.ma_data scaled = c ^+ 2 *: Numpy.ma_data tmp
     /\ Numpy.ma_mask scaled = Numpy.ma_mask tmp).
Proof.
split=> [N' D|N D'] Y mask W WW Z ZZ scaled tmp; split; apply/rowP => i.
- rewrite [RHS]mxE /scaled /tmp !TauD_residualE mulr_sumr.
  by apply: eq_bigr => n _; rewrite expected_sq_residual_scale.
- by rewrite /scaled /tmp !TauD_residual_mask.
- rewrite [RHS]mxE /scaled /tmp !TauN_residualE mulr_sumr.
  by apply: eq_bigr => d _; rewrite expected_sq_residual_scale.
by rewrite /scaled /tmp !TauN_residual_mask.
Qed.

(** X14.  With no latent factor at all ([K = 0]) the update still goes
    through, and the data of [tmp] are the sum of the squares of the
    observations that are present: over the samples of a column for
    [TauD_Node], over the features of a row for [TauN_Node]. *)
Theorem residual_without_factors (F : numFieldType) :
  (forall N' D (Y : 'M[F]_(N'.+1, D)) mask (W WW : 'M[F]_(D, 0))
          (Z ZZ : 'M[F]_(N'.+1, 0)) d,
     Numpy.ma_data
       (TauD_Node.residual (Numpy.zero_fill Y mask) mask W WW Z ZZ) 0 d
     = \sum_(n | ~~ mask n d) Y n d ^+ 2)
  /\
  (forall N D' (Y : 'M[F]_(N, D'.+1)) mask (W WW : 'M[F]_(D'.+1, 0))
          (Z ZZ : 'M[F]_(N, 0)) n,
     Numpy.ma_data
       (TauN_Node.residual (Numpy.zero_fill Y mask) mask W WW Z ZZ) 0 n
     = \sum_(d | ~~ mask n d) Y n d ^+ 2).
Proof.
split=> [N' D|N D'] Y mask W WW Z ZZ i.
  rewrite TauD_residualE; apply: eq_bigr => n _.
  exact: expected_sq_residual_no_factor.
rewrite TauN_residualE; apply: eq_bigr => d _.
exact: expected_sq_residual_no_factor.
Qed.

(** ** Any sequence of calls *)

Section RunFacts.

Variables (F : numFieldType) (K : nat) (log gammaln digamma : F -> F).
Variable rng : Type.
Variable Gamma_sample : forall n, Core.Gamma1 F n -> rng -> 'rV[F]_n * rng.

Lemma TauD_sample_fields N' D (s : TauD_Node.state F N' D K rng) distrib :
  let s' := (TauD_Node.sample Gamma_sample distrib s).1 in
  [/\ TauD_Node.mem s' = TauD_Node.mem s,
      TauD_Node.base (TauD_Node.self s') = TauD_Node.base (TauD_Node.self s),
      TauD_Node.self_N (TauD_Node.self s') = TauD_Node.self_N (TauD_Node.self s)
    & TauD_Node.lbconst (TauD_Node.self s')
      = TauD_Node.lbconst (TauD_Node.self s)].
Proof. by rewrite /TauD_Node.sample; case: (Gamma_sample _ _). Qed.

Lemma TauN_sample_fields N D' (s : TauN_Node.state F N D' K rng) distrib :
  let s' := (TauN_Node.sample Gamma_sample distrib s).1 in
  [/\ TauN_Node.mem s' = TauN_Node.mem s,
      TauN_Node.base (TauN_Node.self s') = TauN_Node.base (TauN_Node.self s),
      TauN_Node.self_D (TauN_Node.self s') = TauN_Node.self_D (TauN_Node.self s)
    & TauN_Node.lbconst (TauN_Node.self s')
      = TauN_Node.lbconst (TauN_Node.self s)].
Proof. by rewrite /TauN_Node.sample; case: (Gamma_sample _ _). Qed.

(** What one call keeps, and what it does to the posterior. *)
Lemma TauD_call_inv N' D (s : TauD_Node.state F N' D K rng) c :
  TauD_Node.wf s ->
  let s' := Driver.TauD_call log digamma Gamma_sample s c in
  [/\ TauD_Node.wf s',
      TauD_Node.Pa s' = TauD_Node.Pa s /\ TauD_Node.Pb s' = TauD_Node.Pb s,
      TauD_Node.self_N (TauD_Node.self s') = TauD_Node.self_N (TauD_Node.self s)
      /\ TauD_Node.lbconst (TauD_Node.self s')
         = TauD_Node.lbconst (TauD_Node.self s),
      TauD_Node.new_posterior s' = TauD_Node.new_posterior s
    & (TauD_Node.Qa s', TauD_Node.Qb s')
      = if Driver.is_update c
        then ((TauD_Node.new_posterior s).1,
              Numpy.ma_data (TauD_Node.new_posterior s).2)
        else (TauD_Node.Qa s, TauD_Node.Qb s)].
Proof.
move=> wf_s; case: c => [|distrib] /=.
  have [_ newE] := TauD_update_inputs log digamma wf_s.
  have wf_u := TauD_update_wf log digamma wf_s.
  have PaE := TauD_update_Pa log digamma wf_s.
  have PbE := TauD_update_Pb log digamma wf_s.
  have QaE := TauD_update_Qa log digamma wf_s.
  have QbE := TauD_update_Qb log digamma wf_s.
  split; [exact: wf_u | split; [exact: PaE | exact: PbE] | | exact: newE |].
    by rewrite TauD_update_self.
  by rewrite QaE QbE.
have [memE baseE NE lbE] := TauD_sample_fields s distrib.
rewrite /TauD_Node.wf /TauD_Node.Pa /TauD_Node.Pb /TauD_Node.Qa /TauD_Node.Qb.
rewrite /TauD_Node.new_posterior /TauD_Node.Y /TauD_Node.mask /TauD_Node.W.
rewrite /TauD_Node.WW /TauD_Node.Z /TauD_Node.ZZ /TauD_Node.Pa /TauD_Node.Pb.
by rewrite memE baseE NE lbE.
Qed.

Lemma TauN_call_inv N D' (s : TauN_Node.state F N D' K rng) c :
  TauN_Node.wf s ->
  let s' := Driver.TauN_call log digamma Gamma_sample s c in
  [/\ TauN_Node.wf s',
      TauN_Node.Pa s' = TauN_Node.Pa s /\ TauN_Node.Pb s' = TauN_Node.Pb s,
      TauN_Node.self_D (TauN_Node.self s') = TauN_Node.self_D (TauN_Node.self s)
      /\ TauN_Node.lbconst (TauN_Node.self s')
         = TauN_Node.lbconst (TauN_Node.self s),
      TauN_Node.new_posterior s' = TauN_Node.new_posterior s
    & (TauN_Node.Qa s', TauN_Node.Qb s')
      = if Driver.is_update c
        then ((TauN_Node.new_posterior s).1,
              Numpy.ma_data (TauN_Node.new_posterior s).2)
        else (TauN_Node.Qa s, TauN_Node.Qb s)].
Proof.
move=> wf_s; case: c => [|distrib] /=.
  have [_ newE] := TauN_update_inputs log digamma wf_s.
  have wf_u := TauN_update_wf log digamma wf_s.
  have PaE := TauN_update_Pa log digamma wf_s.
  have PbE := TauN_update_Pb log digamma wf_s.
  have QaE := TauN_update_Qa log digamma wf_s.
  have QbE := TauN_update_Qb log digamma wf_s.
  split; [exact: wf_u | split; [exact: PaE | exact: PbE] | | exact: newE |].
    by rewrite TauN_update_self.
  by rewrite QaE QbE.
have [memE baseE NE lbE] := TauN_sample_fields s distrib.
rewrite /TauN_Node.wf /TauN_Node.Pa /TauN_Node.Pb /TauN_Node.Qa /TauN_Node.Qb.
rewrite /TauN_Node.new_posterior /TauN_Node.Y /TauN_Node.mask /TauN_Node.W.
rewrite /TauN_Node.WW /TauN_Node.Z /TauN_Node.ZZ /TauN_Node.Pa /TauN_Node.Pb.
by rewrite memE baseE NE lbE.
Qed.

Lemma TauD_run_inv N' D (s : TauD_Node.state F N' D K rng) calls :
  TauD_Node.wf s ->
  let s' := Driver.TauD_run log digamma Gamma_sample calls s in
  [/\ TauD_Node.wf s',
      TauD_Node.Pa s' = TauD_Node.Pa s /\ TauD_Node.Pb s' = TauD_Node.Pb s,
      TauD_Node.self_N (TauD_Node.self s') = TauD_Node.self_N (TauD_Node.self s)
      /\ TauD_Node.lbconst (TauD_Node.self s')
         = TauD_Node.lbconst (TauD_Node.self s),
      TauD_Node.new_posterior s' = TauD_Node.new_posterior s
    & (TauD_Node.Qa s', TauD_Node.Qb s')
      = if has Driver.is_update calls
        then ((TauD_Node.new_posterior s).1,
              Numpy.ma_data (TauD_Node.new_posterior s).2)
        else (TauD_Node.Qa s, TauD_Node.Qb s)].
Proof.
move=> wf_s; elim/last_ind: calls => [|calls c IH]; first by [].
rewrite /Driver.TauD_run -cats1 foldl_cat has_cat /= orbF.
move: IH; rewrite /Driver.TauD_run /=.
set sk := foldl _ s calls => -[wf_k [Pa_k Pb_k] [N_k lb_k] new_k Q_k].
have [wf_c [-> ->] [-> ->] -> ->] :=
  TauD_call_inv (s := sk) c wf_k.
rewrite new_k Q_k {wf_k new_k Q_k}.
split; [exact: wf_c | split; [exact: Pa_k | exact: Pb_k]
       | split; [exact: N_k | exact: lb_k] | by [] |].
by case: (Driver.is_update c); rewrite ?orbT ?orbF.
Qed.

Lemma TauN_run_inv N D' (s : TauN_Node.state F N D' K rng) calls :
  TauN_Node.wf s ->
  let s' := Driver.TauN_run log digamma Gamma_sample calls s in
  [/\ TauN_Node.wf s',
      TauN_Node.Pa s' = TauN_Node.Pa s /\ TauN_Node.Pb s' = TauN_Node.Pb s,
      TauN_Node.self_D (TauN_Node.self s') = TauN_Node.self_D (TauN_Node.self s)
      /\ TauN_Node.lbconst (TauN_Node.self s')
         = TauN_Node.lbconst (TauN_Node.self s),
      TauN_Node.new_posterior s' = TauN_Node.new_posterior s
    & (TauN_Node.Qa s', TauN_Node.Qb s')
      = if has Driver.is_update calls
        then ((TauN_Node.new_posterior s).1,
              Numpy.ma_data (TauN_Node.new_posterior s).2)
        else (TauN_Node.Qa s, TauN_Node.Qb s)].
Proof.
move=> wf_s; elim/last_ind: calls => [|calls c IH]; first by [].
rewrite /Driver.TauN_run -cats1 foldl_cat has_cat /= orbF.
move: IH; rewrite /Driver.TauN_run /=.
set sk := foldl _ s calls => -[wf_k [Pa_k Pb_k] [N_k lb_k] new_k Q_k].
have [wf_c [-> ->] [-> ->] -> ->] :=
  TauN_call_inv (s := sk) c wf_k.
rewrite new_k Q_k {wf_k new_k Q_k}.
split; [exact: wf_c | split; [exact: Pa_k | exact: Pb_k]
       | split; [exact: N_k | exact: lb_k] | by [] |].
by case: (Driver.is_update c); rewrite ?orbT ?orbF.
Qed.

End RunFacts.

Section RunInit.

Variables (F : numFieldType) (K : nat) (log gammaln digamma : F -> F).
Variable rng : Type.

Lemma TauD_init_self_N N' D h (mb : Core.MarkovBlanket F N'.+1 D K)
    pa pb qa qb qE (g : rng) :
  TauD_Node.self_N
    (TauD_Node.self (TauD_Node.init log gammaln digamma h mb pa pb qa qb qE g))
  = N'.+1.
Proof.
rewrite /TauD_Node.init.
have := Node_new_node log digamma h mb pa pb qa qb qE.
by case: (Core.Node_new _ _ _ _ _ _ _ _ _) => nd h1 /= ->.
Qed.

Lemma TauN_init_self_D N D' h (mb : Core.MarkovBlanket F N D'.+1 K)
    pa pb qa qb qE (g : rng) :
  TauN_Node.self_D
    (TauN_Node.self (TauN_Node.init log gammaln digamma h mb pa pb qa qb qE g))
  = D'.+1.
Proof.
rewrite /TauN_Node.init.
have := Node_new_node log digamma h mb pa pb qa qb qE.
by case: (Core.Node_new _ _ _ _ _ _ _ _ _) => nd h1 /= ->.
Qed.

End RunInit.

(** X15.  Whatever calls of [updateParameters] and of [sample] are made on
    a node built by [__init__], in whatever order, the references of the
    node stay in the store, the prior is the one given at the start, the
    cached length [self.N] (or [self.D]) is that of the aggregated axis,
    and the cached [lbconst] is the value that [precompute] would give
    now: the cache is never stale.  The numbers kept for the posterior
    are those of a single update as soon as one update was made, and the
    initial ones before. *)
Theorem invariants_along_any_run (F : numFieldType) (K : nat)
    (log gammaln digamma : F -> F) (rng : Type)
    (Gamma_sample : forall n, Core.Gamma1 F n -> rng -> 'rV[F]_n * rng) :
  (forall N' D h (mb : Core.MarkovBlanket F N'.+1 D K) pa pb qa qb qE
          (g : rng) calls,
     (Core.Y_data (Core.blanket_Y mb) < size h)%N ->
     let s0 := TauD_Node.init log gammaln digamma h mb pa pb qa qb qE g in
     let s := Driver.TauD_run log digamma Gamma_sample calls s0 in
     [/\ TauD_Node.wf s,
         TauD_Node.Pa s = pa /\ TauD_Node.Pb s = pb,
         TauD_Node.self_N (TauD_Node.self s) = N'.+1,
         TauD_Node.lbconst (TauD_Node.self s)
         = TauD_Node.lbconst
             (TauD_Node.precompute log gammaln (TauD_Node.mem s)
                (TauD_Node.base (TauD_Node.self s)))
       & (TauD_Node.Qa s, TauD_Node.Qb s)
         = if has Driver.is_update calls
           then ((TauD_Node.new_posterior s0).1,
                 Numpy.ma_data (TauD_Node.new_posterior s0).2)
           else (qa, qb)])
  /\
  (forall N D' h (mb : Core.MarkovBlanket F N D'.+1 K) pa pb qa qb qE
          (g : rng) calls,
     (Core.Y_data (Core.blanket_Y mb) < size h)%N ->
     let s0 := TauN_Node.init log gammaln digamma h mb pa pb qa qb qE g in
     let s := Driver.TauN_run log digamma Gamma_sample calls s0 in
     [/\ TauN_Node.wf s,
         TauN_Node.Pa s = pa /\ TauN_Node.Pb s = pb,
         TauN_Node.self_D (TauN_Node.self s) = D'.+1,
         TauN_Node.lbconst (TauN_Node.self s)
         = TauN_Node.lbconst
             (TauN_Node.precompute log gammaln (TauN_Node.mem s)
                (TauN_Node.base (TauN_Node.self s)))
       & (TauN_Node.Qa s, TauN_Node.Qb s)
         = if has Driver.is_update calls
           then ((TauN_Node.new_posterior s0).1,
                 Numpy.ma_data (TauN_Node.new_posterior s0).2)
           else (qa, qb)]).
Proof.
split=> [N' D|N D'] h mb pa pb qa qb qE g calls ltY s0 s.
- have wf0 : TauD_Node.wf s0 by exact: TauD_init_wf.
  have [wf_s [PaE PbE] [NE lbE] _ QE] :=
    TauD_run_inv log digamma Gamma_sample calls wf0.
  have [Pa0 Pb0 _] :=
    TauD_init_prior log gammaln digamma h mb pa pb qa qb qE g.
  have [Qa0 Qb0 _ _ _] :=
    TauD_init_posterior log gammaln digamma h mb pa pb qa qb qE g.
  split; rewrite -/s0 -/s.
  + exact: wf_s.
  + by rewrite PaE PbE.
  + by rewrite NE; exact: TauD_init_self_N.
  + rewrite lbE [RHS]TauD_precompute_lbconst PaE PbE /s0 TauD_init_lbconst.
    exact: TauD_precompute_lbconst.
  by rewrite QE Qa0 Qb0.
have wf0 : TauN_Node.wf s0 by exact: TauN_init_wf.
have [wf_s [PaE PbE] [NE lbE] _ QE] :=
  TauN_run_inv log digamma Gamma_sample calls wf0.
have [Pa0 Pb0 _] :=
  TauN_init_prior log gammaln digamma h mb pa pb qa qb qE g.
have [Qa0 Qb0 _ _ _] :=
  TauN_init_posterior log gammaln digamma h mb pa pb qa qb qE g.
split; rewrite -/s0 -/s.
- exact: wf_s.
- by rewrite PaE PbE.
- by rewrite NE; exact: TauN_init_self_D.
- rewrite lbE [RHS]TauN_precompute_lbconst PaE PbE /s0 TauN_init_lbconst.
  exact: TauN_precompute_lbconst.
by rewrite QE Qa0 Qb0.
Qed.

Lemma invariants_along_any_run_witness :
  let s := Driver.TauD_run Example.fn Example.fn Example.draw
             [:: Driver.Sample Example.distrib_Q; Driver.Update;
                 Driver.Sample Example.distrib_Q; Driver.Update]
             Example.scenario in
  TauD_Node.lbconst (TauD_Node.self s)
  = TauD_Node.lbconst
      (TauD_Node.precompute Example.fn Example.fn (TauD_Node.mem s)
         (TauD_Node.base (TauD_Node.self s))).
Proof.
have [HD _] := @invariants_along_any_run rat 1 Example.fn Example.fn
                 Example.fn unit Example.draw.
have ltY : (Core.Y_data (Core.blanket_Y Example2.scenario_blanket)
            < size [:: Example.scenario_Y])%N by [].
have [_ _ _ lbE _] := HD 1 2 [:: Example.scenario_Y]
  Example2.scenario_blanket (const_mx 1) (const_mx 1) (const_mx 1)
  (const_mx 1) None tt
  [:: Driver.Sample Example.distrib_Q; Driver.Update;
      Driver.Sample Example.distrib_Q; Driver.Update] ltY.
exact: lbE.
Defined.
